(** * CookieContentSettings: the options page (src/options.ts, src/api.ts)

    A shallow embedding of the options page of the extension and of the
    callback-to-promise adapter it is built on, with the properties of its
    reconciliation logic.

    Strings are JavaScript strings, that is sequences of UTF-16 code units;
    the settings object (a JavaScript object used as a map from rule key to
    entry) is a finite map. *)

From Stdlib Require Import String Ascii.
From stdpp Require Import gmap list fin_maps sorting.

(** ** JavaScript strings *)

Abbreviation jsstring := (list N).

(** A source literal, as code units (the literals of the source are ASCII). *)
Definition lit (s : string) : jsstring :=
  N_of_ascii <$> list_ascii_of_string s.

Definition slash : N := 47%N.

(** ** Regular expressions

    The fragment of JavaScript regular expressions that [autoCompletePath]
    uses: a character class, a greedy [+] over a class, a greedy [?], sequence
    and capture groups, matched by backtracking with a continuation. *)

Inductive regex :=
| RClass (p : N → bool)
| RPlus (p : N → bool)
| ROpt (r : regex)
| RSeq (r1 r2 : regex)
| RGroup (i : nat) (r : regex).

Abbreviation captures := (list (option jsstring)).

(** [x+] for a class [x], greedy: the longest run first, then shorter ones. *)
Fixpoint plus_greedy {R} (p : N → bool) (s : jsstring)
    (k : jsstring → option R) : option R :=
  match s with
  | [] => None
  | c :: s' =>
      if p c then
        match plus_greedy p s' k with
        | Some r => Some r
        | None => k s'
        end
      else None
  end.

Fixpoint rmatch (r : regex) (s : jsstring) (caps : captures)
    (k : jsstring → captures → option captures) : option captures :=
  match r with
  | RClass p =>
      match s with
      | c :: s' => if p c then k s' caps else None
      | [] => None
      end
  | RPlus p => plus_greedy p s (λ s', k s' caps)
  | ROpt r =>
      match rmatch r s caps k with
      | Some m => Some m
      | None => k s caps
      end
  | RSeq r1 r2 => rmatch r1 s caps (λ s' caps', rmatch r2 s' caps' k)
  | RGroup i r =>
      rmatch r s caps
        (λ s' caps', k s' (<[i := Some (take (length s - length s') s)]> caps'))
  end.

(** [s.match(/^r$/)] for a pattern with [n] groups: the array of the whole
    match and the groups ([None] is [undefined]), or [None] for [null]. The
    pattern is anchored at both ends and has no flags, so the only start
    position is 0 and [$] is the end of the input. *)
Definition match_anchored (r : regex) (n : nat) (s : jsstring) : option captures :=
  rmatch r s (replicate (S n) None)
    (λ s' caps, match s' with
                | [] => Some (<[0 := Some s]> caps)
                | _ :: _ => None
                end).

(** [.]: any code unit but the line terminators LF, CR, LS and PS. *)
Definition dot (c : N) : bool :=
  negb (bool_decide (c = 10 ∨ c = 13 ∨ c = 8232 ∨ c = 8233)%N).

(** [[^/]] and [/]. *)
Definition not_slash (c : N) : bool := negb (bool_decide (c = slash)).
Definition is_slash (c : N) : bool := bool_decide (c = slash).

(** [new RegExp("^(.+//[^/]+)(/)?$")] *)
Definition patternWithoutPath : regex :=
  RSeq (RGroup 1 (RSeq (RPlus dot)
                   (RSeq (RClass is_slash)
                      (RSeq (RClass is_slash) (RPlus not_slash)))))
       (ROpt (RGroup 2 (RClass is_slash))).

(** String concatenation with a value that may be [undefined]. *)
Definition to_string (v : option jsstring) : jsstring :=
  match v with
  | Some s => s
  | None => lit "undefined"
  end.

Definition autoCompletePath (pattern : jsstring) : jsstring :=
  match match_anchored patternWithoutPath 2 pattern with
  | Some m =>
      let patternWithoutTrailingSlash := to_string (mjoin (m !! 1)) in
      patternWithoutTrailingSlash ++ lit "/*"
  | None => pattern
  end.

(** The language of [patternWithoutPath] up to the optional trailing slash:
    a non-empty part free of line terminators, a double slash, and a
    non-empty part free of slashes. *)
Definition host_pattern (h : jsstring) : Prop :=
  ∃ A B, h = A ++ [slash; slash] ++ B
    ∧ A ≠ [] ∧ Forall (λ c, dot c = true) A
    ∧ B ≠ [] ∧ Forall (λ c, not_slash c = true) B.

(** A scheme and a host with no path, read as a URL: as [host_pattern], with
    a scheme that holds no slash either. *)
Definition scheme_and_host (h : jsstring) : Prop :=
  ∃ scheme host, h = scheme ++ [slash; slash] ++ host
    ∧ scheme ≠ [] ∧ Forall (λ c, dot c = true ∧ not_slash c = true) scheme
    ∧ host ≠ [] ∧ Forall (λ c, not_slash c = true) host.

(** ** Data model *)

(** The [setting] of [chrome.contentSettings.CookieSetDetails]. *)
Inductive Setting := allow | block | session_only.

Record CookieSettingsEntry := {
  primaryPattern : jsstring;
  secondaryPattern : option jsstring;
  setting : Setting;
}.

Global Instance Setting_eq_dec : EqDecision Setting.
Proof. solve_decision. Defined.
Global Instance CookieSettingsEntry_eq_dec : EqDecision CookieSettingsEntry.
Proof. solve_decision. Defined.

(** The template literal [`${entry.primaryPattern};${entry.secondaryPattern}`]:
    an absent secondary pattern is interpolated as the text [undefined]. *)
Definition keyForEntry (entry : CookieSettingsEntry) : jsstring :=
  primaryPattern entry ++ lit ";" ++ to_string (secondaryPattern entry).

(** [Record<string, CookieSettingsEntry>] *)
Abbreviation CookieSettings := (gmap jsstring CookieSettingsEntry).

(** [Object.values(settings)]. The claims below do not depend on the order
    in which a JavaScript object enumerates its keys; the map's own order
    stands for it. *)
Definition Object_values (settings : CookieSettings) : list CookieSettingsEntry :=
  (map_to_list settings).*2.

(** ** The external systems and the promise adapter *)

(** [chrome.runtime.lastError] *)
Record LastError := { message : option jsstring }.

(** The callback-terminated operations the page invokes. *)
Inductive ExtCall :=
| CookiesClear                               (* contentSettings.cookies.clear({}, cb) *)
| CookiesSet (entry : CookieSettingsEntry)   (* contentSettings.cookies.set(entry, cb) *)
| SyncGet                                    (* storage.sync.get("cookieSettings", cb) *)
| SyncSet (cookieSettings : CookieSettings)  (* storage.sync.set({ cookieSettings }, cb) *)
| SyncClear.                                 (* storage.sync.clear(cb) *)

(** What an operation hands to its callback: nothing, or the items of a
    [get], where the requested key may be absent. *)
Inductive CbValue :=
| VUndefined
| VItems (cookieSettings : option CookieSettings).

Inductive Settled :=
| Resolved (v : CbValue)
| Rejected (e : LastError).

(** One invocation of the adapter: the operation it started, whether the
    promise carries the [finally] hook of the page's wrapper, and the state of
    the promise ([None] while the callback has not fired). *)
Record Request := {
  req_call : ExtCall;
  req_hooked : bool;
  req_state : option Settled;
}.

Inductive Event :=
| EIssue (h : nat) (c : ExtCall)
| ESettle (h : nat) (r : Settled)
| EStatus (h : nat) (text : jsstring).

Record World := {
  currentSettings : CookieSettings;   (* let currentSettings *)
  table : CookieSettings;             (* the settings the table shows *)
  statusText : jsstring;              (* ui.statusText.textContent *)
  lastError : option LastError;       (* chrome.runtime.lastError *)
  sync : option CookieSettings;       (* storage.sync, key "cookieSettings" *)
  calls : list Request;               (* every adapter call, by handle *)
  log : list Event;
}.

Definition set_currentSettings (v : CookieSettings) (w : World) : World :=
  {| currentSettings := v; table := table w; statusText := statusText w;
     lastError := lastError w; sync := sync w; calls := calls w; log := log w |}.
Definition set_table (v : CookieSettings) (w : World) : World :=
  {| currentSettings := currentSettings w; table := v; statusText := statusText w;
     lastError := lastError w; sync := sync w; calls := calls w; log := log w |}.
Definition set_statusText (v : jsstring) (w : World) : World :=
  {| currentSettings := currentSettings w; table := table w; statusText := v;
     lastError := lastError w; sync := sync w; calls := calls w; log := log w |}.
Definition set_lastError (v : option LastError) (w : World) : World :=
  {| currentSettings := currentSettings w; table := table w; statusText := statusText w;
     lastError := v; sync := sync w; calls := calls w; log := log w |}.
Definition set_sync (v : option CookieSettings) (w : World) : World :=
  {| currentSettings := currentSettings w; table := table w; statusText := statusText w;
     lastError := lastError w; sync := v; calls := calls w; log := log w |}.
Definition set_calls (v : list Request) (w : World) : World :=
  {| currentSettings := currentSettings w; table := table w; statusText := statusText w;
     lastError := lastError w; sync := sync w; calls := v; log := log w |}.
Definition emit (e : Event) (w : World) : World :=
  {| currentSettings := currentSettings w; table := table w; statusText := statusText w;
     lastError := lastError w; sync := sync w; calls := calls w; log := log w ++ [e] |}.

(** The page as the script leaves it before its first call, over a
    synchronized store holding [persisted]. *)
Definition startup (persisted : option CookieSettings) : World :=
  {| currentSettings := ∅; table := ∅; statusText := []; lastError := None;
     sync := persisted; calls := []; log := [] |}.

(** [lastError.message || "Unknown error"]: an absent or empty message is falsy. *)
Definition message_or_unknown (e : LastError) : jsstring :=
  match message e with
  | Some (c :: m) => c :: m
  | Some [] | None => lit "Unknown error"
  end.

Definition updateStatus (w : World) : World :=
  match lastError w with
  | Some e => set_statusText (message_or_unknown e) w
  | None => set_statusText [] w
  end.

Definition state_of (w : World) (h : nat) : option Settled :=
  r ← calls w !! h; req_state r.

(** Resolving or rejecting a promise; a promise settles once. *)
Definition settle (h : nat) (r : Settled) (w : World) : World :=
  set_calls
    (alter (λ q, {| req_call := req_call q; req_hooked := req_hooked q;
                    req_state := match req_state q with
                                 | None => Some r
                                 | Some r0 => Some r0
                                 end |}) h (calls w)) w.

(** The callback [cb] that [api] hands to the operation: it rejects with
    [chrome.runtime.lastError] when that is set, and resolves with its
    argument otherwise. *)
Definition cb_outcome (w : World) (cbArg : CbValue) : Settled :=
  match lastError w with
  | Some e => Rejected e
  | None => Resolved cbArg
  end.

Definition cb (h : nat) (cbArg : CbValue) (w : World) : World :=
  settle h (cb_outcome w cbArg) w.

(** Modelled from the spec: the synchronized store of §6, which is not part
    of the sources. A successful [set] or [clear] replaces the persisted
    value as a whole and a [get] delivers it; the rule engine is observed
    only through the calls made to it. *)
Definition serve (c : ExtCall) (store : option CookieSettings)
    : option CookieSettings * CbValue :=
  match c with
  | CookiesClear | CookiesSet _ => (store, VUndefined)
  | SyncGet => (store, VItems store)
  | SyncSet v => (Some v, VUndefined)
  | SyncClear => (None, VUndefined)
  end.

(** [chrome.storage.StorageChange] *)
Record StorageChange := {
  oldValue : option CookieSettings;
  newValue : option CookieSettings;
}.

(** ** Completion of calls and the event loop *)

(** How an async function or a handler ends: it returns, it throws (its
    promise rejects), or it stays suspended on a promise that never settles. *)
Inductive Exn :=
| ExnLastError (e : LastError)
| TypeError.

Inductive Completion (A : Type) :=
| Normal (a : A)
| Thrown (e : Exn)
| Suspended.
Global Arguments Normal {A} a.
Global Arguments Thrown {A} e.
Global Arguments Suspended {A}.

Definition M (A : Type) : Type := World → Completion A * World.

Global Instance M_ret : MRet M := λ A a w, (Normal a, w).
Global Instance M_bind : MBind M := λ A B f m w,
  match m w with
  | (Normal a, w') => f a w'
  | (Thrown e, w') => (Thrown e, w')
  | (Suspended, w') => (Suspended, w')
  end.

Definition throw {A} (e : Exn) : M A := λ w, (Thrown e, w).
Definition gets {A} (f : World → A) : M A := λ w, (Normal (f w), w).
Definition modify (f : World → World) : M unit := λ w, (Normal tt, f w).

(** What [await] makes of a settled promise. *)
Definition completion_of (r : Settled) : Completion CbValue :=
  match r with
  | Resolved v => Normal v
  | Rejected e => Thrown (ExnLastError e)
  end.

Definition is_settled (w : World) (h : nat) : bool :=
  bool_decide (is_Some (state_of w h)).

Definition unsettled (w : World) : nat :=
  length (filter (λ q, req_state q = None) (calls w)).

Section Environment.

(** The environment decides, for each call, whether it fails, and in which
    order the calls in flight complete. Both are arbitrary: [outcome] by
    handle and operation, [sched] from the history so far. *)
Variable outcome : nat → ExtCall → option LastError.
Variable sched : list Event → nat.

(** The external system completes call [h]: on success the operation takes
    effect, [chrome.runtime.lastError] is set or left unset, the callback
    fires, and the [finally] hook of a wrapped promise runs before the
    runtime clears [lastError] again. A failed operation has no effect and
    hands nothing to its callback. The change notification that follows a
    write to the store is not part of this step: the [onChanged] listener is
    a step of its own ([onChanged_listener] below), taken between the runs of
    the handlers, and a run is made of the handler's own steps and of
    completions of calls. *)
Definition complete (h : nat) (q : Request) (w : World) : World :=
  let err := outcome h (req_call q) in
  let served := match err with
                | None => serve (req_call q) (sync w)
                | Some _ => (sync w, VUndefined)
                end in
  let w1 := set_lastError err (set_sync served.1 w) in
  let w2 := cb h served.2 w1 in
  let w3 := emit (ESettle h (cb_outcome w1 served.2)) w2 in
  let w4 := if req_hooked q
            then let w' := updateStatus w3 in emit (EStatus h (statusText w')) w'
            else w3 in
  set_lastError None w4.

(** The promise state that call [h] for operation [c] settles to. *)
Definition verdict (h : nat) (c : ExtCall) (v : CbValue) : Settled :=
  match outcome h c with
  | Some e => Rejected e
  | None => Resolved v
  end.

(** The worlds that the event loop can reach from a world, completing calls
    in flight in any order. *)
Inductive evolves : World → World → Prop :=
| evolves_refl w : evolves w w
| evolves_step w h q w' :
    calls w !! h = Some q → req_state q = None →
    evolves (complete h q w) w' → evolves w w'.

(** The next call to complete: the scheduler's choice when that call is in
    flight, the oldest call in flight otherwise. *)
Definition pick (w : World) : option (nat * Request) :=
  let h := sched (log w) in
  match calls w !! h with
  | Some q =>
      match req_state q with
      | None => Some (h, q)
      | Some _ => list_find (λ q, req_state q = None) (calls w)
      end
  | None => list_find (λ q, req_state q = None) (calls w)
  end.

(** The event loop runs until every promise of [targets] has settled. *)
Fixpoint run_until (fuel : nat) (targets : list nat) (w : World) : World :=
  if forallb (is_settled w) targets then w
  else match fuel with
       | 0 => w
       | S fuel' =>
           match pick w with
           | Some (h, q) => run_until fuel' targets (complete h q w)
           | None => w
           end
       end.

(** [api(object, fn, ...fnArgs)] of api.ts: a new promise, the operation
    started with the adapter's callback. *)
Definition issue (hooked : bool) (c : ExtCall) : M nat := λ w,
  let h := length (calls w) in
  (Normal h,
   emit (EIssue h c)
     (set_calls (calls w ++ [{| req_call := c; req_hooked := hooked;
                                req_state := None |}]) w)).

Definition _api (c : ExtCall) : M nat := issue false c.

(** [const api = (...args) => _api(...args).finally(() => updateStatus())] *)
Definition api (c : ExtCall) : M nat := issue true c.

(** [await p]: the function resumes when the promise has settled, with its
    value or with its rejection thrown. *)
Definition await (h : nat) : M CbValue := λ w,
  let w' := run_until (unsettled w) [h] w in
  match state_of w' h with
  | Some r => (completion_of r, w')
  | None => (Suspended, w')
  end.

(** [await Promise.allSettled(ps)]: never rejects. *)
Definition await_allSettled (hs : list nat) : M (list Settled) := λ w,
  let w' := run_until (unsettled w) hs w in
  if forallb (is_settled w') hs
  then (Normal (omap (state_of w') hs), w')
  else (Suspended, w').

(** ** The page *)

Definition updateTable (cookieSettings : CookieSettings) : M unit :=
  modify (set_table cookieSettings).

Definition onSyncedSettings (cookieSettings : option CookieSettings) : M unit :=
  modify (set_currentSettings (default ∅ cookieSettings));;
  cur ← gets currentSettings;
  updateTable cur.

Definition removeEntry (entry : CookieSettingsEntry) : M unit :=
  (* Step 1: clear all cookie settings *)
  h ← api CookiesClear;
  _ ← await h;
  (* Step 2: restore all cookie settings except for the removed entry *)
  cur ← gets currentSettings;
  let remainingEntries := delete (keyForEntry entry) cur in
  hs ← mapM (λ entry, api (CookiesSet entry)) (Object_values remainingEntries);
  _ ← await_allSettled hs;
  h' ← api (SyncSet remainingEntries);
  _ ← await h';
  mret tt.

(** [api(chrome.storage.sync, "get", "cookieSettings").then(...)]; the
    callback destructures the items it is given. *)
Definition initial_fetch : M unit :=
  h ← api SyncGet;
  v ← await h;
  match v with
  | VItems cookieSettings => onSyncedSettings cookieSettings
  | VUndefined => throw TypeError
  end.

(** The [onChanged] listener, applied to the [cookieSettings] member of the
    changes it is given. *)
Definition onChanged_listener (cookieSettings : option StorageChange) : M unit :=
  match cookieSettings with
  | Some change => onSyncedSettings (newValue change)
  | None => mret tt
  end.

(** The submit handler of the add form, on the values of its three inputs. *)
Definition addForm_entry (primaryPatternInput secondaryPatternInput : jsstring)
    (settingDropdown : Setting) : CookieSettingsEntry :=
  {| primaryPattern := autoCompletePath primaryPatternInput;
     secondaryPattern := match secondaryPatternInput with
                         | [] => None
                         | _ :: _ => Some (autoCompletePath secondaryPatternInput)
                         end;
     setting := settingDropdown |}.

Definition addForm_submit (primaryPatternInput secondaryPatternInput : jsstring)
    (settingDropdown : Setting) : M unit :=
  let entry := addForm_entry primaryPatternInput secondaryPatternInput settingDropdown in
  h ← api (CookiesSet entry);
  _ ← await h;
  cur ← gets currentSettings;
  h' ← api (SyncSet (<[keyForEntry entry := entry]> cur));
  _ ← await h';
  mret tt.

Definition setAllButton_click : M unit :=
  cur ← gets currentSettings;
  _ ← mapM (λ entry, api (CookiesSet entry)) (Object_values cur);
  mret tt.

(** The click handler, on the answer to [window.confirm]. *)
Definition clearAllButton_click (confirmed : bool) : M unit :=
  if confirmed then
    h ← api CookiesClear;
    _ ← await h;
    h' ← api SyncClear;
    _ ← await h';
    mret tt
  else mret tt.

End Environment.

(** ** Observations on a run *)

(** The operations started from handle [n] on, in the order they were started. *)
Definition issued_since (n : nat) (w : World) : list ExtCall :=
  drop n (req_call <$> calls w).

Definition is_issue (e : Event) : bool :=
  match e with
  | EIssue _ _ => true
  | _ => false
  end.

(** A call that was just started. *)
Definition fresh (hooked : bool) (c : ExtCall) : Request :=
  {| req_call := c; req_hooked := hooked; req_state := None |}.

(** The world after the adapter has started the operations [cs], one after
    the other. *)
Definition issued_world (hooked : bool) (cs : list ExtCall) (w : World) : World :=
  {| currentSettings := currentSettings w; table := table w;
     statusText := statusText w; lastError := lastError w; sync := sync w;
     calls := calls w ++ (fresh hooked <$> cs);
     log := log w ++ imap (λ i c, EIssue (i + length (calls w)) c) cs |}.

Definition event_handle (e : Event) : nat :=
  match e with
  | EIssue h _ | ESettle h _ | EStatus h _ => h
  end.

(** The events of a history that concern call [h]. *)
Definition events_of (h : nat) (evs : list Event) : list Event :=
  filter (λ e, event_handle e = h) evs.

(** The status text that the settling of a wrapped promise leaves. *)
Definition render (r : Settled) : jsstring :=
  match r with
  | Rejected e => message_or_unknown e
  | Resolved _ => []
  end.

Definition no_issue (evs : list Event) : Prop :=
  Forall (λ e, is_issue e = false) evs.

(** The canonical rule set that a persisted value stands for: the reading
    [cookieSettings || {}] of [onSyncedSettings]. *)
Definition canonical (persisted : option CookieSettings) : CookieSettings :=
  default ∅ persisted.

(** The sets handed to [storage.sync.set] from handle [n] on. *)
Definition persisted_since (n : nat) (w : World) : list CookieSettings :=
  omap (λ c, match c with SyncSet v => Some v | _ => None end) (issued_since n w).

Definition is_clear (c : ExtCall) : bool :=
  match c with
  | CookiesClear => true
  | _ => false
  end.

(** ** Sample data

    Three rules, the set that holds them, a page that mirrors this set, and
    environments in which nothing fails, the engine's clear fails, or the
    replay of one entry fails. *)

Definition entryA : CookieSettingsEntry :=
  {| primaryPattern := lit "a.com"; secondaryPattern := None;
     setting := block |}.
Definition entryB : CookieSettingsEntry :=
  {| primaryPattern := lit "b.com";
     secondaryPattern := Some (lit "t.com"); setting := allow |}.
Definition entryC : CookieSettingsEntry :=
  {| primaryPattern := lit "c.com"; secondaryPattern := None;
     setting := session_only |}.

Definition settingsBC : CookieSettings :=
  <[keyForEntry entryB := entryB]> (<[keyForEntry entryC := entryC]> ∅).
Definition settingsABC : CookieSettings :=
  <[keyForEntry entryA := entryA]> settingsBC.

Definition page (settings : CookieSettings) : World :=
  set_table settings (set_currentSettings settings (startup (Some settings))).

Definition boom : LastError := {| message := Some (lit "boom") |}.

Definition no_failure : nat → ExtCall → option LastError := λ _ _, None.

Definition clear_fails : nat → ExtCall → option LastError :=
  λ _ c, match c with
         | CookiesClear => Some boom
         | _ => None
         end.

Definition replay_fails (entry : CookieSettingsEntry)
    : nat → ExtCall → option LastError :=
  λ _ c, match c with
         | CookiesSet e => if decide (e = entry) then Some boom else None
         | _ => None
         end.

(** The scheduler that completes the oldest call in flight. *)
Definition oldest_first : list Event → nat := λ _, 0.

(** ** The table *)

(** The comparison that [sort()] without comparator applies to the keys:
    by code units, a proper prefix first. *)
Fixpoint str_leb (a b : jsstring) : bool :=
  match a, b with
  | [], _ => true
  | _ :: _, [] => false
  | x :: a', y :: b' =>
      if (x <? y)%N then true
      else if (y <? x)%N then false
      else str_leb a' b'
  end.

Definition str_le (a b : jsstring) : Prop := str_leb a b = true.

Global Instance str_le_dec a b : Decision (str_le a b).
Proof. unfold str_le. apply _. Defined.

(** [Object.keys(settings)], in the map's own order as [Object_values]. *)
Definition Object_keys (settings : CookieSettings) : list jsstring :=
  (map_to_list settings).*1.

(** The text of a [setting]. *)
Definition setting_text (s : Setting) : jsstring :=
  match s with
  | allow => lit "allow"
  | block => lit "block"
  | session_only => lit "session_only"
  end.

(** A row of the table: the texts of its three cells, and the entry that a
    click on its Remove button hands to [removeEntry]. *)
Record TableRow := {
  primaryPatternCell : jsstring;
  secondaryPatternCell : jsstring;
  settingCell : jsstring;
  removeButton : CookieSettingsEntry;
}.

(** [entry.secondaryPattern || "*"]: an absent or empty pattern is falsy. *)
Definition createTableRow (entry : CookieSettingsEntry) : TableRow :=
  {| primaryPatternCell := primaryPattern entry;
     secondaryPatternCell := match secondaryPattern entry with
                             | Some (c :: secondary) => c :: secondary
                             | Some [] | None => lit "*"
                             end;
     settingCell := setting_text (setting entry);
     removeButton := entry |}.

(** The rows of the body that [updateTable] builds, one for each of the
    sorted keys. *)
Definition tableBody (cookieSettings : CookieSettings) : list TableRow :=
  let sortedKeys := merge_sort str_le (Object_keys cookieSettings) in
  omap (λ key, createTableRow <$> cookieSettings !! key) sortedKeys.

(** The rows on display. *)
Definition rows (w : World) : list TableRow := tableBody (table w).

(** ** Further notions for the properties *)

(** Every entry of the set is stored under its own key. *)
Definition well_keyed (settings : CookieSettings) : Prop :=
  ∀ key entry, settings !! key = Some entry → key = keyForEntry entry.

Definition has_double_slash (p : jsstring) : Prop :=
  ∃ a b, p = a ++ [slash; slash] ++ b.

Definition semicolon : N := 59%N.

(** The change notification of the store for its present value. *)
Definition notified (old : option CookieSettings) (w : World) : World :=
  (onChanged_listener (Some {| oldValue := old; newValue := sync w |}) w).2.

(** The operations that write the store. *)
Definition store_call (c : ExtCall) : bool :=
  match c with
  | SyncSet _ | SyncClear => true
  | _ => false
  end.

Definition persist_fails : nat → ExtCall → option LastError :=
  λ _ c, match c with
         | SyncSet _ => Some boom
         | _ => None
         end.

(** No call to [chrome.storage.sync] is in flight. The mirror is written by
    [onSyncedSettings] alone, which the page runs on the answer to its initial
    [get] and on the change notification that a write to the store sends. On
    a page where no such call is pending none of the two can arrive while a
    handler waits for the rule engine: when the handler resumes and reads
    [currentSettings] it finds the set that was there when it started. The
    properties of Remove and AddOrReplace that name the set these handlers
    replay or persist are stated for such a page; calls to the rule engine may
    be in flight. Writes to the store from outside the page are not part of
    the model. *)
Definition uses_store (c : ExtCall) : bool :=
  match c with
  | SyncGet | SyncSet _ | SyncClear => true
  | CookiesClear | CookiesSet _ => false
  end.

Definition store_idle (w : World) : bool :=
  forallb (λ q, match req_state q with
                | None => negb (uses_store (req_call q))
                | Some _ => true
                end) (calls w).

(** Finds the next awaited call of the goal and describes its run with the
    lemma [lem] on awaited calls. *)
Ltac next_call lem w0 Hev Hq0 :=
  match goal with
  | |- context [ mbind (λ h, mbind ?k (await _ _ h)) (api ?c) ?w ] =>
      let Heq := fresh "Heq" in
      destruct (lem _ c k w) as (w0 & Hev & Hq0 & Heq);
      rewrite Heq; clear Heq
  end.

(** * Properties *)

Section Properties.

Variable outcome : nat → ExtCall → option LastError.
Variable sched : list Event → nat.

Local Abbreviation verdict := (verdict outcome).
Local Abbreviation complete := (complete outcome).
Local Abbreviation evolves := (evolves outcome).
Local Abbreviation pick := (pick sched).
Local Abbreviation run_until := (run_until outcome sched).
Local Abbreviation await := (await outcome sched).
Local Abbreviation await_allSettled := (await_allSettled outcome sched).

(** *** One completion *)

Lemma complete_currentSettings h q w :
  currentSettings (complete h q w) = currentSettings w.
Proof. unfold complete. by destruct (req_hooked q), (outcome h (req_call q)). Qed.

Lemma complete_table h q w : table (complete h q w) = table w.
Proof. unfold complete. by destruct (req_hooked q), (outcome h (req_call q)). Qed.

Lemma complete_lastError h q w : lastError (complete h q w) = None.
Proof. done. Qed.

Lemma complete_sync h q w :
  sync (complete h q w) =
    match outcome h (req_call q) with
    | None => (serve (req_call q) (sync w)).1
    | Some _ => sync w
    end.
Proof. unfold complete. by destruct (req_hooked q), (outcome h (req_call q)). Qed.

Lemma complete_calls h q w :
  calls (complete h q w) =
    calls (settle h (verdict h (req_call q) (serve (req_call q) (sync w)).2) w).
Proof.
  unfold complete, verdict. by destruct (req_hooked q), (outcome h (req_call q)).
Qed.

Lemma complete_statusText h q w :
  statusText (complete h q w) =
    if req_hooked q
    then match outcome h (req_call q) with
         | Some e => message_or_unknown e
         | None => []
         end
    else statusText w.
Proof. unfold complete. by destruct (req_hooked q), (outcome h (req_call q)). Qed.

Lemma complete_log h q w :
  log (complete h q w) =
    log w ++ ESettle h (verdict h (req_call q) (serve (req_call q) (sync w)).2)
          :: (if req_hooked q
              then [EStatus h (statusText (complete h q w))]
              else []).
Proof.
  rewrite complete_statusText. unfold complete, verdict.
  destruct (req_hooked q), (outcome h (req_call q)); simpl;
    by rewrite <- ?app_assoc.
Qed.

Lemma length_calls_settle h r w : length (calls (settle h r w)) = length (calls w).
Proof. simpl. by rewrite length_alter. Qed.

Lemma complete_length_calls h q w :
  length (calls (complete h q w)) = length (calls w).
Proof. by rewrite complete_calls, length_calls_settle. Qed.

Lemma lookup_calls_settle h r w h' :
  calls (settle h r w) !! h' =
    if decide (h = h')
    then (λ q, {| req_call := req_call q; req_hooked := req_hooked q;
                  req_state := match req_state q with
                               | None => Some r
                               | Some r0 => Some r0
                               end |}) <$> calls w !! h'
    else calls w !! h'.
Proof.
  simpl. case_decide as Hh.
  - subst. by rewrite list_lookup_alter_eq.
  - by rewrite list_lookup_alter_ne.
Qed.

Lemma complete_req_call h q w h' :
  req_call <$> calls (complete h q w) !! h' = req_call <$> calls w !! h'.
Proof.
  rewrite complete_calls, lookup_calls_settle.
  case_decide; [|done]. by destruct (calls w !! h').
Qed.

Lemma complete_req_hooked h q w h' :
  req_hooked <$> calls (complete h q w) !! h' = req_hooked <$> calls w !! h'.
Proof.
  rewrite complete_calls, lookup_calls_settle.
  case_decide; [|done]. by destruct (calls w !! h').
Qed.

Lemma complete_state_eq h q w :
  calls w !! h = Some q → req_state q = None →
  state_of (complete h q w) h =
    Some (verdict h (req_call q) (serve (req_call q) (sync w)).2).
Proof.
  intros Hq Hs. unfold state_of.
  rewrite complete_calls, lookup_calls_settle, decide_True by done.
  rewrite Hq. simpl. by rewrite Hs.
Qed.

Lemma complete_state_ne h q w h' :
  h ≠ h' → state_of (complete h q w) h' = state_of w h'.
Proof.
  intros Hne. unfold state_of.
  by rewrite complete_calls, lookup_calls_settle, decide_False.
Qed.

Lemma complete_state_settled h q w h' r :
  state_of w h' = Some r → state_of (complete h q w) h' = Some r.
Proof.
  destruct (decide (h = h')) as [->|Hne]; [|by rewrite complete_state_ne].
  unfold state_of. rewrite complete_calls, lookup_calls_settle, decide_True by done.
  destruct (calls w !! h') as [q'|]; [|done]. simpl.
  by intros ->.
Qed.

(** *** Calls in flight *)

Lemma pick_Some w h q :
  pick w = Some (h, q) → calls w !! h = Some q ∧ req_state q = None.
Proof.
  unfold pick. intros Hp.
  assert (list_find (λ q, req_state q = None) (calls w) = Some (h, q) →
          calls w !! h = Some q ∧ req_state q = None) as Hfind.
  { intros Hf. apply list_find_Some in Hf. tauto. }
  destruct (calls w !! sched (log w)) as [q0|] eqn:Hq0; [|by auto].
  destruct (req_state q0) eqn:Hs0; [by auto|].
  by simplify_eq.
Qed.

Lemma pick_None w h q :
  pick w = None → calls w !! h = Some q → is_Some (req_state q).
Proof.
  unfold pick. intros Hp Hq.
  assert (list_find (λ q, req_state q = None) (calls w) = None) as Hf.
  { destruct (calls w !! sched (log w)) as [q0|]; [|done].
    by destruct (req_state q0). }
  apply list_find_None in Hf.
  rewrite Forall_lookup in Hf. specialize (Hf h q Hq). simpl in Hf.
  by destruct (req_state q).
Qed.

Lemma unsettled_pos w h q :
  calls w !! h = Some q → req_state q = None → 0 < unsettled w.
Proof.
  intros Hq Hs. unfold unsettled.
  assert (q ∈ filter (λ q, req_state q = None) (calls w)) as Hin.
  { apply list_elem_of_filter. split; [done|]. by eapply list_elem_of_lookup_2. }
  destruct (filter _ _); [by apply elem_of_nil in Hin|simpl; lia].
Qed.

Lemma length_filter_alter {A} (P : A → Prop) `{!∀ x, Decision (P x)}
    (f : A → A) (l : list A) i x :
  l !! i = Some x → P x → ¬ P (f x) →
  S (length (filter P (alter f i l))) = length (filter P l).
Proof.
  revert i. induction l as [|y l IH]; intros [|i] Hx HP HnP; simplify_eq/=.
  - rewrite filter_cons_False, filter_cons_True by done. done.
  - rewrite !filter_cons. destruct (decide (P y)); simpl; by rewrite (IH i).
Qed.

Lemma unsettled_complete w h q :
  calls w !! h = Some q → req_state q = None →
  S (unsettled (complete h q w)) = unsettled w.
Proof.
  intros Hq Hs. unfold unsettled. rewrite complete_calls. simpl.
  apply (length_filter_alter _ _ _ _ q); [done..|].
  simpl. by rewrite Hs.
Qed.

(** *** The event loop *)

Lemma run_until_done fuel targets w :
  forallb (is_settled w) targets = true → run_until fuel targets w = w.
Proof. intros H. destruct fuel; simpl; by rewrite H. Qed.

Lemma run_until_step fuel targets w h q :
  forallb (is_settled w) targets = false → pick w = Some (h, q) →
  run_until (S fuel) targets w = run_until fuel targets (complete h q w).
Proof. intros H Hp. simpl. by rewrite H, Hp. Qed.

Lemma evolves_trans w1 w2 w3 : evolves w1 w2 → evolves w2 w3 → evolves w1 w3.
Proof.
  induction 1 as [|w h q w' Hq Hs _ IH]; [done|].
  intros H3. eapply evolves_step; eauto.
Qed.

Lemma evolves_complete w h q :
  calls w !! h = Some q → req_state q = None → evolves w (complete h q w).
Proof. intros. eapply evolves_step; eauto using evolves_refl. Qed.

Lemma run_until_evolves fuel targets w : evolves w (run_until fuel targets w).
Proof.
  revert w. induction fuel as [|fuel IH]; intros w; simpl.
  - destruct (forallb _ _); apply evolves_refl.
  - destruct (forallb _ _); [apply evolves_refl|].
    destruct (pick w) as [[h q]|] eqn:Hp; [|apply evolves_refl].
    apply pick_Some in Hp as [Hq Hs]. eapply evolves_step; eauto.
Qed.

Lemma is_settled_false w h :
  is_settled w h = false → h < length (calls w) →
  ∃ q, calls w !! h = Some q ∧ req_state q = None.
Proof.
  unfold is_settled, state_of. intros Hs Hlt.
  apply bool_decide_eq_false in Hs.
  destruct (lookup_lt_is_Some_2 (calls w) h Hlt) as [q Hq].
  exists q. split; [done|]. rewrite Hq in Hs. simpl in Hs.
  destruct (req_state q); [|done]. by destruct Hs.
Qed.

Lemma forallb_false_elem {A} (f : A → bool) (l : list A) :
  forallb f l = false → ∃ x, x ∈ l ∧ f x = false.
Proof.
  induction l as [|x l IH]; simpl; [done|].
  destruct (f x) eqn:Hx; simpl.
  - intros (y & ? & ?)%IH. exists y. split; [by right|done].
  - intros _. exists x. split; [by left|done].
Qed.

Lemma unsettled_target w targets :
  forallb (is_settled w) targets = false →
  Forall (λ h, h < length (calls w)) targets →
  ∃ h q, h ∈ targets ∧ calls w !! h = Some q ∧ req_state q = None.
Proof.
  intros (h & Hin & Hsh)%forallb_false_elem Hts.
  rewrite Forall_forall in Hts.
  destruct (is_settled_false w h Hsh (Hts _ Hin)) as (q & Hq & Hs).
  eauto.
Qed.

(** With the fuel that [await] gives it, the loop runs until the targets
    have settled. *)
Lemma run_until_settles fuel targets w :
  unsettled w ≤ fuel → Forall (λ h, h < length (calls w)) targets →
  forallb (is_settled (run_until fuel targets w)) targets = true.
Proof.
  revert w. induction fuel as [|fuel IH]; intros w Hfuel Hts.
  - destruct (forallb (is_settled w) targets) eqn:Hall.
    { by rewrite run_until_done. }
    destruct (unsettled_target _ _ Hall Hts) as (h & q & _ & Hq & Hs).
    pose proof (unsettled_pos _ _ _ Hq Hs). lia.
  - destruct (forallb (is_settled w) targets) eqn:Hall.
    { by rewrite run_until_done. }
    destruct (unsettled_target _ _ Hall Hts) as (h0 & q0 & _ & Hq0 & Hs0).
    destruct (pick w) as [[h q]|] eqn:Hp.
    + rewrite (run_until_step _ _ _ _ _ Hall Hp).
      apply pick_Some in Hp as [Hq Hs].
      apply IH.
      * pose proof (unsettled_complete _ _ _ Hq Hs). lia.
      * by rewrite complete_length_calls.
    + destruct (pick_None _ _ _ Hp Hq0) as [r Hr]. congruence.
Qed.

(** *** What the event loop leaves alone *)

Lemma evolves_currentSettings w w' :
  evolves w w' → currentSettings w' = currentSettings w.
Proof.
  induction 1 as [|w h q w' _ _ _ IH]; [done|].
  by rewrite IH, complete_currentSettings.
Qed.

Lemma evolves_table w w' : evolves w w' → table w' = table w.
Proof.
  induction 1 as [|w h q w' _ _ _ IH]; [done|].
  by rewrite IH, complete_table.
Qed.

Lemma evolves_length_calls w w' :
  evolves w w' → length (calls w') = length (calls w).
Proof.
  induction 1 as [|w h q w' _ _ _ IH]; [done|].
  by rewrite IH, complete_length_calls.
Qed.

Lemma evolves_req_call w w' :
  evolves w w' → req_call <$> calls w' = req_call <$> calls w.
Proof.
  induction 1 as [|w h q w' _ _ _ IH]; [done|].
  rewrite IH. apply list_eq. intros i.
  rewrite !list_lookup_fmap. apply complete_req_call.
Qed.

Lemma evolves_req_hooked w w' :
  evolves w w' → req_hooked <$> calls w' = req_hooked <$> calls w.
Proof.
  induction 1 as [|w h q w' _ _ _ IH]; [done|].
  rewrite IH. apply list_eq. intros i.
  rewrite !list_lookup_fmap. apply complete_req_hooked.
Qed.

Lemma evolves_issued_since n w w' :
  evolves w w' → issued_since n w' = issued_since n w.
Proof. intros H. unfold issued_since. by rewrite (evolves_req_call _ _ H). Qed.

Lemma evolves_lookup w w' h q :
  evolves w w' → calls w !! h = Some q →
  ∃ q', calls w' !! h = Some q' ∧ req_call q' = req_call q
        ∧ req_hooked q' = req_hooked q.
Proof.
  intros Hev Hq.
  pose proof (f_equal (.!! h) (evolves_req_call _ _ Hev)) as Hc.
  pose proof (f_equal (.!! h) (evolves_req_hooked _ _ Hev)) as Hk.
  simpl in Hc, Hk.
  rewrite !list_lookup_fmap, Hq in Hc. rewrite !list_lookup_fmap, Hq in Hk.
  destruct (calls w' !! h) as [q'|]; simplify_eq/=. eauto.
Qed.

Lemma evolves_state_settled w w' h r :
  evolves w w' → state_of w h = Some r → state_of w' h = Some r.
Proof.
  induction 1 as [|w h' q w' _ _ _ IH]; [done|].
  intros Hr. by apply IH, complete_state_settled.
Qed.

Lemma evolves_is_settled w w' hs :
  evolves w w' → forallb (is_settled w) hs = true →
  forallb (is_settled w') hs = true.
Proof.
  intros Hev. rewrite !forallb_forall. intros Hall h Hin.
  specialize (Hall h Hin). unfold is_settled in *.
  apply bool_decide_eq_true in Hall as [r Hr].
  apply bool_decide_eq_true. exists r. by eapply evolves_state_settled.
Qed.

(** Completions start no operation. *)
Lemma evolves_log w w' :
  evolves w w' → ∃ evs, log w' = log w ++ evs ∧ no_issue evs.
Proof.
  induction 1 as [w|w h q w' _ _ _ (evs & Hlog & Hevs)].
  - exists []. split; [by rewrite app_nil_r|constructor].
  - rewrite complete_log in Hlog.
    eexists. split; [by rewrite Hlog, <- app_assoc|].
    apply Forall_app. split; [|done].
    destruct (req_hooked q); repeat constructor.
Qed.

(** A settled promise holds the verdict on its call, and its settling is on
    record. *)
Lemma evolves_verdict w w' h q r :
  evolves w w' → calls w !! h = Some q → req_state q = None →
  state_of w' h = Some r →
  (∃ v, r = verdict h (req_call q) v) ∧
  ∃ evs, log w' = log w ++ evs ∧ ESettle h r ∈ evs.
Proof.
  induction 1 as [w|w h' q' w' Hq' Hs' Hev IH]; intros Hq Hs Hr.
  { unfold state_of in Hr. rewrite Hq in Hr. simpl in Hr. congruence. }
  destruct (decide (h' = h)) as [->|Hne].
  - assert (q' = q) as -> by congruence.
    pose proof (complete_state_eq _ _ _ Hq Hs) as Hst.
    pose proof (evolves_state_settled _ _ _ _ Hev Hst) as Hst'.
    rewrite Hr in Hst'. injection Hst' as ->.
    split; [eauto|].
    destruct (evolves_log _ _ Hev) as (evs & Hlog & _).
    rewrite complete_log, <- app_assoc in Hlog.
    eexists. split; [exact Hlog|]. simpl. by left.
  - assert (calls (complete h' q' w) !! h = Some q) as Hq2.
    { by rewrite complete_calls, lookup_calls_settle, decide_False. }
    destruct (IH Hq2 Hs Hr) as [Hv (evs & Hlog & Hin)].
    split; [done|].
    rewrite complete_log, <- app_assoc in Hlog.
    eexists. split; [exact Hlog|].
    right. apply elem_of_app. by right.
Qed.

(** With no call in flight the event loop has nothing to do. *)
Lemma evolves_quiet w w' : unsettled w = 0 → evolves w w' → w' = w.
Proof.
  intros H0. destruct 1 as [|w h q w' Hq Hs _]; [done|].
  pose proof (unsettled_pos _ _ _ Hq Hs). lia.
Qed.

(** Waiting for one call in flight ends with the completion of that call. *)
Lemma run_until_last fuel w h q :
  calls w !! h = Some q → req_state q = None → unsettled w ≤ fuel →
  ∃ w0 q0, evolves w w0 ∧ calls w0 !! h = Some q0 ∧ req_state q0 = None
           ∧ run_until fuel [h] w = complete h q0 w0.
Proof.
  revert w. induction fuel as [|fuel IH]; intros w Hq Hs Hfuel.
  { pose proof (unsettled_pos _ _ _ Hq Hs). lia. }
  assert (forallb (is_settled w) [h] = false) as Hall.
  { simpl. unfold is_settled, state_of. rewrite Hq. simpl. rewrite Hs.
    rewrite bool_decide_eq_false_2; [done|]. by intros [??]. }
  destruct (pick w) as [[h' q']|] eqn:Hp; cycle 1.
  { destruct (pick_None _ _ _ Hp Hq) as [r Hr]. congruence. }
  rewrite (run_until_step _ _ _ _ _ Hall Hp).
  apply pick_Some in Hp as [Hq' Hs'].
  destruct (decide (h' = h)) as [->|Hne].
  - assert (q' = q) as -> by congruence.
    exists w, q. split_and!; [apply evolves_refl|done..|].
    apply run_until_done. simpl. unfold is_settled.
    rewrite (complete_state_eq _ _ _ Hq Hs).
    rewrite bool_decide_eq_true_2; [done|]. by eexists.
  - destruct (IH (complete h' q' w)) as (w0 & q0 & Hev & Hq0 & Hs0 & Hrun).
    + by rewrite complete_calls, lookup_calls_settle, decide_False.
    + done.
    + pose proof (unsettled_complete _ _ _ Hq' Hs'). lia.
    + exists w0, q0. split_and!; [|done..].
      eapply evolves_step; eauto.
Qed.

(** *** The adapter *)

Lemma issue_spec hooked c w :
  issue hooked c w = (Normal (length (calls w)), issued_world hooked [c] w).
Proof. done. Qed.

Lemma issued_world_sync hooked cs w : sync (issued_world hooked cs w) = sync w.
Proof. done. Qed.

Lemma issued_world_currentSettings hooked cs w :
  currentSettings (issued_world hooked cs w) = currentSettings w.
Proof. done. Qed.

Lemma issued_world_length_calls hooked cs w :
  length (calls (issued_world hooked cs w)) = length (calls w) + length cs.
Proof. simpl. by rewrite length_app, length_fmap. Qed.

Lemma issued_world_req_call hooked cs w :
  req_call <$> calls (issued_world hooked cs w) = (req_call <$> calls w) ++ cs.
Proof.
  simpl. rewrite fmap_app. f_equal.
  rewrite <- list_fmap_compose. by rewrite list_fmap_id.
Qed.

Lemma issued_world_nil hooked w : issued_world hooked [] w = w.
Proof. destruct w. unfold issued_world. simpl. by rewrite !app_nil_r. Qed.

Lemma issued_world_app hooked cs1 cs2 w :
  issued_world hooked cs2 (issued_world hooked cs1 w)
  = issued_world hooked (cs1 ++ cs2) w.
Proof.
  unfold issued_world. simpl. f_equal.
  - by rewrite fmap_app, app_assoc.
  - rewrite imap_app, <- app_assoc. do 2 f_equal.
    apply imap_ext. intros i c _. simpl.
    rewrite length_app, length_fmap. f_equal. lia.
Qed.

Lemma mapM_api_spec es w :
  mapM (λ entry, api (CookiesSet entry)) es w
  = (Normal (seq (length (calls w)) (length es)),
     issued_world true (CookiesSet <$> es) w).
Proof.
  revert w. induction es as [|e es IH]; intros w; simpl.
  - by rewrite issued_world_nil.
  - unfold mbind, M_bind at 1. unfold api at 1. rewrite issue_spec.
    unfold mbind, M_bind. rewrite IH. simpl.
    rewrite length_app. simpl. rewrite Nat.add_1_r.
    by rewrite (issued_world_app true [CookiesSet e]).
Qed.

Lemma issued_world_lookup_old hooked cs w h :
  h < length (calls w) → calls (issued_world hooked cs w) !! h = calls w !! h.
Proof. intros. simpl. by rewrite lookup_app_l. Qed.

Lemma issued_world_lookup_new hooked cs w i c :
  cs !! i = Some c →
  calls (issued_world hooked cs w) !! (length (calls w) + i) = Some (fresh hooked c).
Proof.
  intros Hc. simpl. rewrite lookup_app_r by lia.
  replace (length (calls w) + i - length (calls w)) with i by lia.
  by rewrite list_lookup_fmap, Hc.
Qed.

Lemma issued_world_unsettled hooked cs w :
  unsettled (issued_world hooked cs w) = unsettled w + length cs.
Proof.
  unfold unsettled. simpl. rewrite filter_app, length_app. f_equal.
  induction cs as [|c cs IH]; [done|].
  rewrite fmap_cons, filter_cons_True by done. simpl. by rewrite IH.
Qed.

Lemma issued_since_issued_world hooked cs w :
  issued_since (length (calls w)) (issued_world hooked cs w) = cs.
Proof.
  unfold issued_since. simpl. rewrite fmap_app.
  rewrite drop_app_length' by by rewrite length_fmap.
  rewrite <- list_fmap_compose. by rewrite list_fmap_id.
Qed.

(** *** [await] *)

Lemma await_pending w h q :
  calls w !! h = Some q → req_state q = None →
  ∃ w0 q0, evolves w w0 ∧ calls w0 !! h = Some q0 ∧ req_state q0 = None
    ∧ req_call q0 = req_call q ∧ req_hooked q0 = req_hooked q
    ∧ await h w
      = (completion_of (verdict h (req_call q) (serve (req_call q) (sync w0)).2),
         complete h q0 w0).
Proof.
  intros Hq Hs.
  destruct (run_until_last (unsettled w) w h q Hq Hs) as (w0 & q0 & Hev & Hq0 & Hs0 & Hrun);
    [done|].
  destruct (evolves_lookup _ _ _ _ Hev Hq) as (q0' & Hq0' & Hc & Hk).
  assert (q0' = q0) as -> by congruence.
  exists w0, q0. split_and!; [done..|].
  unfold await. rewrite Hrun, (complete_state_eq _ _ _ Hq0 Hs0), Hc.
  unfold verdict. by destruct (outcome h (req_call q)).
Qed.

(** Starting an operation through the adapter and waiting for it. *)
Lemma issue_await hooked c w :
  ∃ w0, evolves (issued_world hooked [c] w) w0
    ∧ calls w0 !! length (calls w) = Some (fresh hooked c)
    ∧ (h ← issue hooked c; await h) w
      = (completion_of (verdict (length (calls w)) c (serve c (sync w0)).2),
         complete (length (calls w)) (fresh hooked c) w0).
Proof.
  set (n := length (calls w)).
  assert (calls (issued_world hooked [c] w) !! n = Some (fresh hooked c)) as Hq.
  { rewrite <- (Nat.add_0_r n). by apply issued_world_lookup_new. }
  destruct (await_pending _ _ _ Hq eq_refl) as (w0 & q0 & Hev & Hq0 & Hs0 & Hc & Hk & Haw).
  assert (q0 = fresh hooked c) as ->.
  { destruct q0. simpl in *. by subst. }
  exists w0. split_and!; [done..|].
  unfold mbind, M_bind. rewrite issue_spec. exact Haw.
Qed.

Lemma api_await c w :
  ∃ w0, evolves (issued_world true [c] w) w0
    ∧ calls w0 !! length (calls w) = Some (fresh true c)
    ∧ (h ← api c; await h) w
      = (completion_of (verdict (length (calls w)) c (serve c (sync w0)).2),
         complete (length (calls w)) (fresh true c) w0).
Proof. apply issue_await. Qed.

Lemma await_allSettled_spec hs w :
  Forall (λ h, h < length (calls w)) hs →
  ∃ w', evolves w w' ∧ forallb (is_settled w') hs = true
    ∧ await_allSettled hs w = (Normal (omap (state_of w') hs), w').
Proof.
  intros Hhs. exists (run_until (unsettled w) hs w).
  pose proof (run_until_settles (unsettled w) hs w (le_n _) Hhs) as Hall.
  split_and!; [apply run_until_evolves|done|].
  unfold await_allSettled. by rewrite Hall.
Qed.

(** An awaited call inside an async function: the function goes on with the
    value handed to the callback, or ends with the rejection. *)
Lemma bind_call {B} c (k : CbValue → M B) w :
  ∃ w0, evolves (issued_world true [c] w) w0
    ∧ calls w0 !! length (calls w) = Some (fresh true c)
    ∧ (h ← api c; v ← await h; k v) w
      = match outcome (length (calls w)) c with
        | Some e =>
            (Thrown (ExnLastError e), complete (length (calls w)) (fresh true c) w0)
        | None =>
            k (serve c (sync w0)).2 (complete (length (calls w)) (fresh true c) w0)
        end.
Proof.
  destruct (api_await c w) as (w0 & Hev & Hq0 & Heq).
  exists w0. split_and!; [done..|].
  unfold mbind, M_bind, api in Heq |- *. rewrite issue_spec in Heq |- *.
  rewrite Heq. unfold verdict. by destruct (outcome _ c).
Qed.

(** *** One awaited call: from its start to its completion

    [w0] is a world the event loop reaches after the operation [c] was
    started in [w], with that operation still in flight; its completion is
    the last step of the [await]. *)

Section Awaited.

Variables (c : ExtCall) (w w0 : World).
Hypothesis Hev : evolves (issued_world true [c] w) w0.
Hypothesis Hq0 : calls w0 !! length (calls w) = Some (fresh true c).

Local Abbreviation n := (length (calls w)).
Local Abbreviation w' := (complete n (fresh true c) w0).

Lemma awaited_currentSettings : currentSettings w' = currentSettings w.
Proof. by rewrite complete_currentSettings, (evolves_currentSettings _ _ Hev). Qed.

Lemma awaited_table : table w' = table w.
Proof. by rewrite complete_table, (evolves_table _ _ Hev). Qed.

Lemma awaited_length_calls : length (calls w') = S n.
Proof.
  rewrite complete_length_calls, (evolves_length_calls _ _ Hev). simpl.
  rewrite length_app. simpl. lia.
Qed.

Lemma awaited_req_call : req_call <$> calls w' = (req_call <$> calls w) ++ [c].
Proof.
  transitivity (req_call <$> calls w0).
  - apply list_eq. intros i. rewrite !list_lookup_fmap. apply complete_req_call.
  - rewrite (evolves_req_call _ _ Hev). simpl. by rewrite fmap_app.
Qed.

Lemma awaited_issued_since k :
  k ≤ n → issued_since k w' = issued_since k w ++ [c].
Proof.
  intros Hk. unfold issued_since. rewrite awaited_req_call.
  rewrite drop_app_le by (rewrite length_fmap; lia). done.
Qed.

Lemma awaited_statusText :
  statusText w' = match outcome n c with
                  | Some e => message_or_unknown e
                  | None => []
                  end.
Proof. by rewrite complete_statusText. Qed.

Lemma awaited_sync :
  sync w' = match outcome n c with
            | None => (serve c (sync w0)).1
            | Some _ => sync w0
            end.
Proof. by rewrite complete_sync. Qed.

Lemma awaited_log :
  ∃ evs, no_issue evs
    ∧ log w' = log w ++ EIssue n c :: evs
                 ++ [ESettle n (verdict n c (serve c (sync w0)).2);
                     EStatus n (statusText w')].
Proof.
  destruct (evolves_log _ _ Hev) as (evs & Hlog & Hevs).
  exists evs. split; [done|].
  rewrite complete_log, Hlog. simpl. by rewrite <- !app_assoc.
Qed.

(** With nothing else in flight, the completion of [c] is the only step. *)
Lemma awaited_quiet : unsettled w = 0 → w0 = issued_world true [c] w.
Proof.
  intros Hquiet.
  assert (unsettled (issued_world true [c] w) = 1) as H1.
  { rewrite issued_world_unsettled, Hquiet. done. }
  destruct Hev as [|w1 h q w2 Hq Hs Hev2]; [done|].
  pose proof (unsettled_complete _ _ _ Hq Hs) as Hdec.
  assert (unsettled (complete h q w1) = 0) as H0 by lia.
  apply (evolves_quiet _ _ H0) in Hev2. subst w2.
  pose proof (unsettled_pos _ _ _ Hq0 eq_refl). lia.
Qed.

Lemma awaited_unsettled : unsettled w = 0 → unsettled w' = 0.
Proof.
  intros Hquiet. pose proof (awaited_quiet Hquiet) as ->.
  pose proof (unsettled_complete _ _ _ Hq0 eq_refl) as Hdec.
  rewrite issued_world_unsettled, Hquiet in Hdec. simpl in Hdec. lia.
Qed.

End Awaited.

(** *** ClearAll *)

Lemma clearAll_run w :
  let n := length (calls w) in
  let r := clearAllButton_click outcome sched true w in
  currentSettings r.2 = currentSettings w
  ∧ issued_since n r.2
    = match outcome n CookiesClear with
      | None => [CookiesClear; SyncClear]
      | Some _ => [CookiesClear]
      end
  ∧ r.1 = match outcome n CookiesClear with
          | Some e => Thrown (ExnLastError e)
          | None => match outcome (S n) SyncClear with
                    | Some e => Thrown (ExnLastError e)
                    | None => Normal tt
                    end
          end
  ∧ (outcome n CookiesClear = None → outcome (S n) SyncClear = None →
     sync r.2 = None ∧ length (calls r.2) = S (S n))
  ∧ (unsettled w = 0 →
     outcome n CookiesClear ≠ None ∨ outcome (S n) SyncClear ≠ None →
     sync r.2 = sync w).
Proof.
  intros n r. subst r. unfold clearAllButton_click.
  destruct (bind_call CookiesClear
              (λ _, h' ← api SyncClear; _ ← await h'; mret tt) w)
    as (w0 & Hev & Hq0 & ->).
  fold n in Hq0 |- *.
  pose proof (awaited_currentSettings _ _ _ Hev) as Hcur.
  pose proof (awaited_issued_since _ _ _ Hev n (le_n _)) as Hiss.
  pose proof (awaited_length_calls _ _ _ Hev) as Hlen.
  pose proof (awaited_sync CookiesClear w w0) as Hsync.
  pose proof (awaited_quiet _ _ _ Hev Hq0) as Hquiet.
  pose proof (awaited_unsettled _ _ _ Hev Hq0) as Hquiet'.
  fold n in Hcur, Hiss, Hlen, Hsync, Hquiet'.
  unfold issued_since at 2 in Hiss. rewrite drop_ge in Hiss by by rewrite length_fmap.
  set (w1 := complete n (fresh true CookiesClear) w0) in *.
  destruct (outcome n CookiesClear) as [e|] eqn:Ho; cbn [fst snd].
  { split_and!; [done..| |].
    - intros; congruence.
    - intros Hq _. rewrite Hsync. by rewrite (Hquiet Hq). }
  destruct (bind_call SyncClear (λ _, mret tt) w1) as (w2 & Hev2 & Hq2 & ->).
  pose proof (awaited_currentSettings _ _ _ Hev2) as Hcur2.
  pose proof (awaited_issued_since _ _ _ Hev2 n) as Hiss2.
  pose proof (awaited_length_calls _ _ _ Hev2) as Hlen2.
  pose proof (awaited_sync SyncClear w1 w2) as Hsync2.
  pose proof (awaited_quiet _ _ _ Hev2 Hq2) as Hquiet2.
  rewrite Hlen in *.
  set (w3 := complete (S n) (fresh true SyncClear) w2) in *.
  rewrite Hiss in Hiss2. specialize (Hiss2 ltac:(lia)).
  destruct (outcome (S n) SyncClear) as [e|] eqn:Ho2; cbn [fst snd mret M_ret].
  - split_and!; [congruence|done|done|intros; congruence|].
    intros Hq _. rewrite Hsync2, (Hquiet2 (Hquiet' Hq)), issued_world_sync.
    rewrite Hsync. by rewrite (Hquiet Hq).
  - split_and!; [congruence|done|done| |].
    + intros _ _. by rewrite Hsync2.
    + intros _ [?|?]; congruence.
Qed.

(** *** Remove *)

Lemma bind_gets {A B} (f : World → A) (k : A → M B) w :
  (x ← gets f; k x) w = k (f w) w.
Proof. done. Qed.

Lemma bind_mapM_api {B} es (k : list nat → M B) w :
  (hs ← mapM (λ entry, api (CookiesSet entry)) es; k hs) w
  = k (seq (length (calls w)) (length es))
      (issued_world true (CookiesSet <$> es) w).
Proof. unfold mbind at 1, M_bind at 1. by rewrite mapM_api_spec. Qed.

Lemma bind_allSettled {B} hs (k : list Settled → M B) w :
  Forall (λ h, h < length (calls w)) hs →
  ∃ w', evolves w w' ∧ forallb (is_settled w') hs = true
    ∧ (x ← await_allSettled hs; k x) w = k (omap (state_of w') hs) w'.
Proof.
  intros Hhs. destruct (await_allSettled_spec hs w Hhs) as (w' & Hev & Hall & Heq).
  exists w'. split_and!; [done..|].
  unfold mbind, M_bind. by rewrite Heq.
Qed.

(** The replay calls, started from world [w], have all settled in [w'], and
    each settling is on record after the calls were started. *)
Lemma replay_settled es w w' :
  evolves (issued_world true (CookiesSet <$> es) w) w' →
  forallb (is_settled w') (seq (length (calls w)) (length es)) = true →
  ∃ evs, no_issue evs
    ∧ log w' = log w ++ imap (λ i c, EIssue (i + length (calls w)) c)
                             (CookiesSet <$> es) ++ evs
    ∧ ∀ i entry, es !! i = Some entry →
        ∃ v, ESettle (length (calls w) + i)
               (verdict (length (calls w) + i) (CookiesSet entry) v) ∈ evs.
Proof.
  intros Hev Hall.
  destruct (evolves_log _ _ Hev) as (evs & Hlog & Hevs).
  exists evs. split_and!; [done| |].
  { rewrite Hlog. unfold issued_world. cbn [log]. by rewrite <- app_assoc. }
  intros i entry Hi.
  assert (calls (issued_world true (CookiesSet <$> es) w) !! (length (calls w) + i)
          = Some (fresh true (CookiesSet entry))) as Hq.
  { apply issued_world_lookup_new. by rewrite list_lookup_fmap, Hi. }
  rewrite forallb_forall in Hall.
  specialize (Hall (length (calls w) + i)).
  unfold is_settled in Hall. rewrite bool_decide_eq_true in Hall.
  destruct Hall as [r Hr].
  { apply in_seq. apply lookup_lt_Some in Hi. lia. }
  destruct (evolves_verdict _ _ _ _ _ Hev Hq eq_refl Hr)
    as [[v ->] (evs' & Hlog' & Hin)].
  rewrite Hlog in Hlog'. apply app_inv_head in Hlog'. subst evs'.
  by exists v.
Qed.

Lemma removeEntry_run entry w :
  let n := length (calls w) in
  let rem := delete (keyForEntry entry) (currentSettings w) in
  let es := Object_values rem in
  let hp := S n + length es in
  let r := removeEntry outcome sched entry w in
  currentSettings r.2 = currentSettings w
  ∧ match outcome n CookiesClear with
    | Some e =>
        r.1 = Thrown (ExnLastError e)
        ∧ issued_since n r.2 = [CookiesClear]
        ∧ ∃ evs1, no_issue evs1
            ∧ log r.2 = log w ++ EIssue n CookiesClear :: evs1
            ∧ ESettle n (Rejected e) ∈ evs1
    | None =>
        r.1 = match outcome hp (SyncSet rem) with
              | Some e => Thrown (ExnLastError e)
              | None => Normal tt
              end
        ∧ issued_since n r.2 = CookiesClear :: (CookiesSet <$> es) ++ [SyncSet rem]
        ∧ (outcome hp (SyncSet rem) = None → sync r.2 = Some rem)
        ∧ ∃ evs1 evs2 evs3, no_issue evs1 ∧ no_issue evs2 ∧ no_issue evs3
            ∧ log r.2
              = log w ++ EIssue n CookiesClear :: evs1
                  ++ imap (λ i c, EIssue (i + S n) c) (CookiesSet <$> es)
                  ++ evs2 ++ EIssue hp (SyncSet rem) :: evs3
            ∧ ESettle n (Resolved VUndefined) ∈ evs1
            ∧ (∀ i entry', es !! i = Some entry' →
                 ∃ v, ESettle (S n + i)
                        (verdict (S n + i) (CookiesSet entry') v) ∈ evs2)
            ∧ ∃ v, ESettle hp (verdict hp (SyncSet rem) v) ∈ evs3
    end.
Proof.
  intros n rem es hp r. subst r. unfold removeEntry.
  next_call (@bind_call) w0 Hev Hq0. fold n in Hq0 |- *.
  pose proof (awaited_currentSettings _ _ _ Hev) as Hcur.
  pose proof (awaited_issued_since _ _ _ Hev n (le_n _)) as Hiss.
  pose proof (awaited_length_calls _ _ _ Hev) as Hlen.
  destruct (awaited_log _ _ _ Hev) as (evs1 & Hevs1 & Hlog1).
  fold n in Hcur, Hiss, Hlen, Hlog1.
  unfold issued_since at 2 in Hiss. rewrite drop_ge in Hiss by by rewrite length_fmap.
  simpl in Hiss.
  set (w1 := complete n (fresh true CookiesClear) w0) in *.
  unfold verdict in Hlog1.
  destruct (outcome n CookiesClear) as [e|] eqn:Ho; cbn [fst snd].
  { split_and!; [done..|].
    eexists. split_and!; [|exact Hlog1|].
    - apply Forall_app. split; [done|]. repeat constructor.
    - apply elem_of_app. right. by left. }
  rewrite bind_gets, Hcur. fold rem es.
  rewrite bind_mapM_api, Hlen.
  match goal with
  | |- context [ mbind ?k (await_allSettled ?hs) ?w ] =>
      destruct (bind_allSettled hs k w) as (w3 & Hev3 & Hall3 & Heq)
  end; cycle 1.
  - rewrite Heq. clear Heq.
    set (w2 := issued_world true (CookiesSet <$> es) w1) in *.
    assert (length (calls w2) = hp) as Hlen2.
    { subst w2. by rewrite issued_world_length_calls, length_fmap, Hlen. }
    assert (length (calls w3) = hp) as Hlen3.
    { by rewrite (evolves_length_calls _ _ Hev3). }
    rewrite <- Hlen in Hall3.
    destruct (replay_settled _ _ _ Hev3 Hall3) as (evs2 & Hevs2 & Hlog3 & Hsettled).
    rewrite Hlen in Hlog3, Hsettled.
    next_call (@bind_call) w4 Hev4 Hq4. rewrite Hlen3 in Hq4 |- *.
    pose proof (awaited_currentSettings _ _ _ Hev4) as Hcur4.
    pose proof (awaited_issued_since _ _ _ Hev4 n) as Hiss4.
    pose proof (awaited_sync (SyncSet rem) w3 w4) as Hsync4.
    destruct (awaited_log _ _ _ Hev4) as (evs3 & Hevs3 & Hlog4).
    rewrite Hlen3 in Hcur4, Hiss4, Hsync4, Hlog4.
    set (w5 := complete hp (fresh true (SyncSet rem)) w4) in *.
    rewrite (evolves_currentSettings _ _ Hev3) in Hcur4.
    rewrite (evolves_issued_since _ _ _ Hev3) in Hiss4.
    assert (issued_since n w2 = CookiesClear :: (CookiesSet <$> es)) as Hiss2.
    { unfold issued_since in Hiss |- *. subst w2.
      rewrite issued_world_req_call, drop_app_le by (rewrite length_fmap; lia).
      by rewrite Hiss. }
    rewrite Hiss2 in Hiss4. specialize (Hiss4 ltac:(lia)).
    assert (currentSettings w5 = currentSettings w) as Hcur5.
    { rewrite Hcur4. subst w2. by rewrite issued_world_currentSettings. }
    assert (∃ v, ESettle hp (verdict hp (SyncSet rem) v)
                   ∈ evs3 ++ [ESettle hp (verdict hp (SyncSet rem)
                                            (serve (SyncSet rem) (sync w4)).2);
                              EStatus hp (statusText w5)]) as Hset5.
    { eexists. apply elem_of_app. right. by left. }
    assert (no_issue (evs3 ++ [ESettle hp (verdict hp (SyncSet rem)
                                            (serve (SyncSet rem) (sync w4)).2);
                               EStatus hp (statusText w5)])) as Hno5.
    { apply Forall_app. split; [done|]. repeat constructor. }
    assert (log w5 = log w ++ EIssue n CookiesClear ::
              (evs1 ++ [ESettle n (Resolved VUndefined); EStatus n (statusText w1)])
              ++ imap (λ i c, EIssue (i + S n) c) (CookiesSet <$> es)
              ++ evs2 ++ EIssue hp (SyncSet rem) ::
              (evs3 ++ [ESettle hp (verdict hp (SyncSet rem)
                                      (serve (SyncSet rem) (sync w4)).2);
                        EStatus hp (statusText w5)])) as Hlog5.
    { rewrite Hlog4, Hlog3, Hlog1. rewrite <- !app_assoc. simpl.
      by rewrite <- !app_assoc. }
    assert (ESettle n (Resolved VUndefined)
              ∈ evs1 ++ [ESettle n (Resolved VUndefined); EStatus n (statusText w1)])
      as Hset1.
    { apply elem_of_app. right. by left. }
    assert (no_issue (evs1 ++ [ESettle n (Resolved VUndefined);
                               EStatus n (statusText w1)])) as Hno1.
    { apply Forall_app. split; [done|]. repeat constructor. }
    destruct (outcome hp (SyncSet rem)) as [e|] eqn:Ho5; cbn [fst snd mret M_ret].
    + split_and!; [done|done|done|done|]. eauto 12.
    + split_and!; [done|done|done|by rewrite Hsync4|]. eauto 12.
  - rewrite Forall_forall. intros h Hin%list_elem_of_In%in_seq.
    rewrite issued_world_length_calls, length_fmap, Hlen. lia.
Qed.

(** *** SetAll *)

Lemma setAll_run w :
  setAllButton_click w
  = (Normal tt,
     issued_world true (CookiesSet <$> Object_values (currentSettings w)) w).
Proof.
  unfold setAllButton_click. rewrite bind_gets.
  unfold mbind at 1, M_bind at 1. by rewrite mapM_api_spec.
Qed.

Lemma length_Object_values (m : CookieSettings) : length (Object_values m) = size m.
Proof. unfold Object_values. by rewrite length_fmap, length_map_to_list. Qed.

Lemma elem_of_Object_values (m : CookieSettings) entry :
  entry ∈ Object_values m ↔ ∃ key, m !! key = Some entry.
Proof.
  unfold Object_values. rewrite list_elem_of_fmap. split.
  - intros ([key e] & -> & Hin). exists key. by apply elem_of_map_to_list.
  - intros [key Hkey]. exists (key, entry). split; [done|].
    by apply elem_of_map_to_list.
Qed.

(** *** AddOrReplace *)

Lemma addForm_run p s v w :
  let n := length (calls w) in
  let entry := addForm_entry p s v in
  let new := <[keyForEntry entry := entry]> (currentSettings w) in
  let r := addForm_submit outcome sched p s v w in
  currentSettings r.2 = currentSettings w
  ∧ issued_since n r.2
    = match outcome n (CookiesSet entry) with
      | None => [CookiesSet entry; SyncSet new]
      | Some _ => [CookiesSet entry]
      end
  ∧ r.1 = match outcome n (CookiesSet entry) with
          | Some e => Thrown (ExnLastError e)
          | None => match outcome (S n) (SyncSet new) with
                    | Some e => Thrown (ExnLastError e)
                    | None => Normal tt
                    end
          end
  ∧ (outcome n (CookiesSet entry) = None → outcome (S n) (SyncSet new) = None →
     sync r.2 = Some new).
Proof.
  intros n entry new r. subst r. unfold addForm_submit. fold entry.
  next_call (@bind_call) w0 Hev Hq0. fold n in Hq0 |- *.
  pose proof (awaited_currentSettings _ _ _ Hev) as Hcur.
  pose proof (awaited_issued_since _ _ _ Hev n (le_n _)) as Hiss.
  pose proof (awaited_length_calls _ _ _ Hev) as Hlen.
  fold n in Hcur, Hiss, Hlen.
  unfold issued_since at 2 in Hiss. rewrite drop_ge in Hiss by by rewrite length_fmap.
  set (w1 := complete n (fresh true (CookiesSet entry)) w0) in *.
  destruct (outcome n (CookiesSet entry)) as [e|] eqn:Ho; cbn [fst snd].
  { split_and!; [done..|]. intros; congruence. }
  rewrite bind_gets, Hcur. fold new.
  next_call (@bind_call) w2 Hev2 Hq2.
  pose proof (awaited_currentSettings _ _ _ Hev2) as Hcur2.
  pose proof (awaited_issued_since _ _ _ Hev2 n) as Hiss2.
  pose proof (awaited_sync (SyncSet new) w1 w2) as Hsync2.
  rewrite Hlen in *.
  set (w3 := complete (S n) (fresh true (SyncSet new)) w2) in *.
  rewrite Hiss in Hiss2. specialize (Hiss2 ltac:(lia)).
  destruct (outcome (S n) (SyncSet new)) as [e|] eqn:Ho2; cbn [fst snd mret M_ret].
  - split_and!; [congruence|done|done|intros; congruence].
  - split_and!; [congruence|done|done|]. intros _ _. by rewrite Hsync2.
Qed.

(** *** Load and change notifications *)

Lemma onSyncedSettings_run v w :
  onSyncedSettings v w
  = (Normal tt, set_table (default ∅ v) (set_currentSettings (default ∅ v) w)).
Proof. done. Qed.

Lemma initial_fetch_run w :
  unsettled w = 0 →
  let n := length (calls w) in
  let r := initial_fetch outcome sched w in
  match outcome n SyncGet with
  | Some e => r.1 = Thrown (ExnLastError e) ∧ currentSettings r.2 = currentSettings w
  | None => r.1 = Normal tt ∧ currentSettings r.2 = canonical (sync w)
            ∧ table r.2 = canonical (sync w) ∧ statusText r.2 = []
  end.
Proof.
  intros Hquiet n r. subst r. unfold initial_fetch.
  next_call (@bind_call) w0 Hev Hq0. fold n in Hq0 |- *.
  pose proof (awaited_currentSettings _ _ _ Hev) as Hcur.
  pose proof (awaited_statusText SyncGet w w0) as Hst.
  pose proof (awaited_quiet _ _ _ Hev Hq0 Hquiet) as Hw0.
  fold n in Hcur, Hst.
  set (w1 := complete n (fresh true SyncGet) w0) in *.
  destruct (outcome n SyncGet) as [e|] eqn:Ho; cbn [fst snd]; [done|].
  rewrite Hw0, issued_world_sync. cbn [serve snd].
  rewrite onSyncedSettings_run. cbn [fst snd]. done.
Qed.

(** *** The status reporter *)

Lemma complete_events h q w :
  calls w !! h = Some q → req_state q = None →
  ∃ v, state_of (complete h q w) h = Some (verdict h (req_call q) v)
    ∧ log (complete h q w)
      = log w ++ ESettle h (verdict h (req_call q) v)
          :: (if req_hooked q
              then [EStatus h (render (verdict h (req_call q) v))]
              else []).
Proof.
  intros Hq Hs. exists (serve (req_call q) (sync w)).2.
  split; [by apply complete_state_eq|].
  rewrite complete_log, complete_statusText. unfold verdict.
  by destruct (req_hooked q), (outcome h (req_call q)).
Qed.

Lemma complete_events_other h q w h' :
  h ≠ h' → ∃ evs, log (complete h q w) = log w ++ evs ∧ events_of h' evs = [].
Proof.
  intros Hne. rewrite complete_log. eexists. split; [done|].
  unfold events_of. rewrite filter_cons_False by (simpl; congruence).
  destruct (req_hooked q); [|done].
  by rewrite filter_cons_False by (simpl; congruence).
Qed.

(** A settled call is heard of no more. *)
Lemma evolves_events_settled w w' h :
  evolves w w' → is_Some (state_of w h) →
  ∃ evs, log w' = log w ++ evs ∧ events_of h evs = [].
Proof.
  induction 1 as [w|w h' q' w' Hq' Hs' Hev IH]; intros [r Hr].
  { exists []. by rewrite app_nil_r. }
  assert (h' ≠ h) as Hne.
  { intros ->. unfold state_of in Hr. rewrite Hq' in Hr. simpl in Hr. congruence. }
  destruct (complete_events_other h' q' w h Hne) as (evs1 & Hlog1 & Hevs1).
  destruct IH as (evs2 & Hlog2 & Hevs2).
  { exists r. by apply complete_state_settled. }
  exists (evs1 ++ evs2). split.
  - by rewrite Hlog2, Hlog1, <- app_assoc.
  - unfold events_of in *. by rewrite filter_app, Hevs1, Hevs2.
Qed.

(** While the event loop runs, a call in flight is heard of only when it
    settles: then its settling is recorded and, for a wrapped promise, one
    status update follows. *)
Lemma evolves_events_of w w' h q :
  evolves w w' → calls w !! h = Some q → req_state q = None →
  ∃ evs, log w' = log w ++ evs
    ∧ events_of h evs
      = match state_of w' h with
        | None => []
        | Some r => ESettle h r :: (if req_hooked q then [EStatus h (render r)] else [])
        end.
Proof.
  induction 1 as [w|w h' q' w' Hq' Hs' Hev IH]; intros Hq Hs.
  { exists []. split; [by rewrite app_nil_r|].
    unfold state_of. rewrite Hq. simpl. by rewrite Hs. }
  destruct (decide (h' = h)) as [->|Hne].
  - assert (q' = q) as -> by congruence.
    destruct (complete_events h q w Hq Hs) as (v & Hst & Hlog1).
    destruct (evolves_events_settled _ _ h Hev) as (evs2 & Hlog2 & Hevs2);
      [by eexists|].
    rewrite (evolves_state_settled _ _ _ _ Hev Hst).
    eexists. split; [by rewrite Hlog2, Hlog1, <- app_assoc|].
    unfold events_of in *. rewrite filter_app, Hevs2, app_nil_r.
    rewrite filter_cons_True by done.
    destruct (req_hooked q); [|done].
    by rewrite filter_cons_True by done.
  - destruct (complete_events_other h' q' w h Hne) as (evs1 & Hlog1 & Hevs1).
    destruct IH as (evs2 & Hlog2 & Hevs2); [|done|].
    { by rewrite complete_calls, lookup_calls_settle, decide_False. }
    exists (evs1 ++ evs2). split.
    + by rewrite Hlog2, Hlog1, <- app_assoc.
    + unfold events_of in *. by rewrite filter_app, Hevs1, Hevs2.
Qed.

End Properties.

(** ** [autoCompletePath] *)

Lemma plus_greedy_Some {R} p s (k : jsstring → option R) r :
  plus_greedy p s k = Some r →
  ∃ pre rest, s = pre ++ rest ∧ pre ≠ [] ∧ Forall (λ c, p c = true) pre
    ∧ k rest = Some r.
Proof.
  induction s as [|c s IH]; simpl; [done|].
  destruct (p c) eqn:Hc; [|done].
  destruct (plus_greedy p s k) as [r0|] eqn:Hrec.
  - intros [= ->]. destruct (IH eq_refl) as (pre & rest & -> & _ & Hpre & Hk).
    exists (c :: pre), rest. split_and!; [done|done| |done].
    by constructor.
  - intros Hk. exists [c], s. split_and!; [done|done| |done].
    by repeat constructor.
Qed.

Lemma plus_greedy_None {R} p s (k : jsstring → option R) pre rest :
  plus_greedy p s k = None →
  s = pre ++ rest → pre ≠ [] → Forall (λ c, p c = true) pre → k rest = None.
Proof.
  revert pre. induction s as [|c s IH]; intros pre Hnone Hs Hne Hpre.
  { by destruct pre. }
  destruct pre as [|c' pre]; [done|]. simplify_eq/=.
  apply Forall_cons in Hpre as [Hc Hpre]. rewrite Hc in Hnone.
  destruct (plus_greedy p (pre ++ rest) k) eqn:Hrec; [done|].
  destruct pre as [|c'' pre]; [done|].
  by apply (IH (c'' :: pre)).
Qed.

Lemma is_slash_true c : is_slash c = true ↔ c = slash.
Proof. unfold is_slash. by rewrite bool_decide_eq_true. Qed.

Lemma not_slash_true c : not_slash c = true ↔ c ≠ slash.
Proof.
  unfold not_slash. rewrite negb_true_iff. by rewrite bool_decide_eq_false.
Qed.

Lemma host_pattern_last h :
  host_pattern h → ∃ h' c, h = h' ++ [c] ∧ c ≠ slash.
Proof.
  intros (A & B & -> & _ & _ & HB & Hns).
  destruct B as [|c B' _] using rev_ind; [done|].
  rewrite Forall_app, Forall_singleton in Hns. destruct Hns as [_ Hc].
  exists (A ++ [slash; slash] ++ B'), c. split.
  - by rewrite <- !app_assoc.
  - by apply not_slash_true in Hc.
Qed.

(** A pattern determines its host part. *)
Lemma host_pattern_unique s h1 h2 :
  host_pattern h1 → host_pattern h2 →
  s = h1 ∨ s = h1 ++ [slash] → s = h2 ∨ s = h2 ++ [slash] → h1 = h2.
Proof.
  intros (h1' & c1 & -> & Hc1)%host_pattern_last
         (h2' & c2 & -> & Hc2)%host_pattern_last [->| ->] [H|H].
  - done.
  - apply app_inj_tail in H as [_ ->]. done.
  - symmetry in H. apply app_inj_tail in H as [_ ->]. done.
  - by apply app_inj_tail in H as [-> _].
Qed.

Lemma take_length_minus {A} (l1 l2 : list A) :
  take (length (l1 ++ l2) - length l2) (l1 ++ l2) = l1.
Proof.
  rewrite length_app. replace (length l1 + length l2 - length l2) with (length l1) by lia.
  by rewrite take_app_length.
Qed.

Lemma match_sound s m :
  match_anchored patternWithoutPath 2 s = Some m →
  ∃ h, host_pattern h ∧ (s = h ∨ s = h ++ [slash]) ∧ m !! 1 = Some (Some h).
Proof.
  unfold match_anchored, patternWithoutPath. cbn [rmatch].
  intros (A & restA & Hs & HA & HdA & Hk)%plus_greedy_Some.
  destruct restA as [|c1 [|c2 rest2]]; try done.
  { by destruct (is_slash c1). }
  destruct (is_slash c1) eqn:Hc1; [|done].
  destruct (is_slash c2) eqn:Hc2; [|done].
  apply is_slash_true in Hc1 as ->. apply is_slash_true in Hc2 as ->.
  apply plus_greedy_Some in Hk as (B & restB & -> & HB & HnB & Hk).
  assert (host_pattern (A ++ [slash; slash] ++ B)) as Hhost.
  { exists A, B. by split_and!. }
  exists (A ++ [slash; slash] ++ B).
  destruct restB as [|c [|c' restB]].
  - rewrite app_nil_r in Hs. subst s. simpl in Hk. injection Hk as <-.
    split_and!; [done|by left|].
    rewrite Nat.sub_0_r, firstn_all. done.
  - destruct (is_slash c) eqn:Hc; [|done].
    apply is_slash_true in Hc as ->. simpl in Hk. injection Hk as <-.
    assert (s = (A ++ [slash; slash] ++ B) ++ [slash]) as Hs'.
    { rewrite Hs. by rewrite <- !app_assoc. }
    split_and!; [done|by right|].
    rewrite Hs', take_length_minus. done.
  - by destruct (is_slash c).
Qed.

Lemma match_complete s h :
  host_pattern h → s = h ∨ s = h ++ [slash] →
  is_Some (match_anchored patternWithoutPath 2 s).
Proof.
  intros (A & B & -> & HA & HdA & HB & HnB) Hs.
  destruct (match_anchored patternWithoutPath 2 s) as [m|] eqn:Hm; [by eexists|].
  exfalso. unfold match_anchored, patternWithoutPath in Hm. cbn [rmatch] in Hm.
  assert (∃ tail, s = A ++ [slash; slash] ++ B ++ tail ∧ (tail = [] ∨ tail = [slash]))
    as (tail & -> & Htail).
  { destruct Hs as [->| ->].
    - exists []. by rewrite app_nil_r; auto.
    - exists [slash]. by rewrite <- !app_assoc; auto. }
  eapply (plus_greedy_None _ _ _ A) in Hm; [|done..].
  simpl in Hm.
  eapply (plus_greedy_None _ _ _ B) in Hm; [|done..].
  by destruct Htail as [-> | ->].
Qed.

Lemma autoCompletePath_match s h :
  host_pattern h → s = h ∨ s = h ++ [slash] →
  autoCompletePath s = h ++ lit "/*".
Proof.
  intros Hh Hs. unfold autoCompletePath.
  destruct (match_complete s h Hh Hs) as [m Hm]. rewrite Hm.
  destruct (match_sound s m Hm) as (h' & Hh' & Hs' & ->).
  by rewrite (host_pattern_unique s h h').
Qed.

Lemma autoCompletePath_no_match s :
  (∀ h, host_pattern h → ¬ (s = h ∨ s = h ++ [slash])) →
  autoCompletePath s = s.
Proof.
  intros Hno. unfold autoCompletePath.
  destruct (match_anchored patternWithoutPath 2 s) as [m|] eqn:Hm; [|done].
  destruct (match_sound s m Hm) as (h & Hh & Hs & _).
  by destruct (Hno h Hh).
Qed.

(** A completed pattern is not matched again: its last segment follows a
    single slash. *)
Lemma completed_no_match h :
  host_pattern h → match_anchored patternWithoutPath 2 (h ++ lit "/*") = None.
Proof.
  intros Hh.
  destruct (match_anchored patternWithoutPath 2 (h ++ lit "/*")) as [m|] eqn:Hm;
    [|done].
  exfalso. destruct (match_sound _ m Hm) as (h2 & Hh2 & Hs & _).
  destruct (host_pattern_last h Hh) as (h' & c & -> & Hc).
  change (lit "/*") with [slash; 42%N] in Hs.
  destruct Hs as [Hs|Hs].
  - destruct Hh2 as (A & B & -> & HA & _ & HB & HnB).
    destruct B as [|b B _] using rev_ind; [done|].
    rewrite (assoc_L (++) _ [slash] [42%N]) in Hs.
    rewrite !(assoc_L (++) _ _ [b]) in Hs.
    apply app_inj_tail in Hs as [Hs _].
    destruct B as [|b' B _] using rev_ind.
    + replace (A ++ [slash; slash] ++ []) with ((A ++ [slash]) ++ [slash]) in Hs
        by by rewrite <- app_assoc.
      apply app_inj_tail in Hs as [Hs _].
      apply app_inj_tail in Hs as [_ ->]. done.
    + replace (A ++ [slash; slash] ++ B ++ [b'])
        with ((A ++ [slash; slash] ++ B) ++ [b']) in Hs
        by by rewrite <- !app_assoc.
      apply app_inj_tail in Hs as [_ <-].
      rewrite !Forall_app, Forall_singleton in HnB.
      destruct HnB as [[_ HnB] _]. by apply not_slash_true in HnB.
  - rewrite (assoc_L (++) _ [slash] [42%N]) in Hs.
    by apply app_inj_tail in Hs as [_ ?].
Qed.

Lemma autoCompletePath_idempotent s :
  autoCompletePath (autoCompletePath s) = autoCompletePath s.
Proof.
  destruct (match_anchored patternWithoutPath 2 s) as [m|] eqn:Hm.
  - destruct (match_sound s m Hm) as (h & Hh & Hs & _).
    rewrite (autoCompletePath_match s h Hh Hs).
    unfold autoCompletePath. by rewrite (completed_no_match h Hh).
  - assert (autoCompletePath s = s) as Hid.
    { unfold autoCompletePath. by rewrite Hm. }
    by rewrite !Hid.
Qed.

(** * Properties of the specification *)

Lemma persisted_since_remove n w' es rem :
  issued_since n w' = CookiesClear :: (CookiesSet <$> es) ++ [SyncSet rem] →
  persisted_since n w' = [rem].
Proof.
  intros Hiss. unfold persisted_since. rewrite Hiss.
  change (omap ?f (CookiesClear :: ?l)) with (omap f l).
  rewrite omap_app. change (omap ?f [SyncSet rem]) with [rem].
  assert (∀ l : list CookieSettingsEntry,
            omap (λ c, match c with SyncSet v => Some v | _ => None end)
              (CookiesSet <$> l) = []) as Hnil.
  { induction l as [|e l IH]; [done|]. rewrite fmap_cons. exact IH. }
  by rewrite Hnil.
Qed.

Lemma filter_is_clear_remove n w' es rem :
  issued_since n w' = CookiesClear :: (CookiesSet <$> es) ++ [SyncSet rem] →
  filter (λ c, is_clear c = true) (issued_since n w') = [CookiesClear].
Proof.
  intros ->. rewrite filter_cons_True by done. f_equal.
  rewrite filter_app. rewrite (filter_cons_False _ (SyncSet rem)) by done.
  rewrite app_nil_r.
  induction es as [|e es IH]; [done|].
  rewrite fmap_cons, filter_cons_False by done. exact IH.
Qed.

(** C1 (amended). Remove is started on a page with no call to the
    synchronized store in flight, so that the mirror it reads after its clear
    call is the canonical set [S] it was started on. Remove first clears the
    rule engine. When that call succeeds, Remove hands exactly one set to the
    synchronized store: [S] without the entry under the key of [e], which
    holds every other entry of [S] unchanged. This is so whatever the
    outcomes of the replay calls are (no condition is put on them): an entry
    whose replay fails is retained. When the persist call succeeds too, the
    store holds that set and Remove returns normally. When the clear call
    fails, Remove ends with that failure and persists nothing. *)
Theorem Remove_persists_remaining outcome sched entry w :
  let n := length (calls w) in
  let rem := delete (keyForEntry entry) (currentSettings w) in
  let hp := S n + size rem in
  let r := removeEntry outcome sched entry w in
  store_idle w = true →
  rem !! keyForEntry entry = None
  ∧ (∀ key, key ≠ keyForEntry entry → rem !! key = currentSettings w !! key)
  ∧ match outcome n CookiesClear with
    | None =>
        persisted_since n r.2 = [rem]
        ∧ (outcome hp (SyncSet rem) = None →
           r.1 = Normal tt ∧ sync r.2 = Some rem)
    | Some e =>
        persisted_since n r.2 = [] ∧ r.1 = Thrown (ExnLastError e)
    end.
Proof.
  intros n rem hp r _. split_and!.
  - apply lookup_delete_eq.
  - intros key Hkey. by apply lookup_delete_ne.
  - pose proof (removeEntry_run outcome sched entry w) as Hrun.
    cbv zeta in Hrun. rewrite length_Object_values in Hrun.
    fold n rem hp r in Hrun. destruct Hrun as [_ Hrun].
    destruct (outcome n CookiesClear) as [e|].
    + destruct Hrun as (Hr & Hiss & _). split; [|done].
      unfold persisted_since. by rewrite Hiss.
    + destruct Hrun as (Hr & Hiss & Hsync & _). split.
      * by eapply persisted_since_remove.
      * intros Hok. rewrite Hok in Hr. auto.
Qed.

(** C1, on the set {A, B, C}: the replay of B fails during Remove(A), and
    the persisted set is exactly {B, C}. *)
Lemma Remove_A_replay_B_fails :
  let r := removeEntry (replay_fails entryB) oldest_first entryA (page settingsABC) in
  persisted_since 0 r.2 = [settingsBC] ∧ sync r.2 = Some settingsBC
  ∧ ESettle 1 (Rejected boom) ∈ log r.2.
Proof.
  assert (delete (keyForEntry entryA) settingsABC = settingsBC) as Hrem
    by (vm_compute; reflexivity).
  destruct (Remove_persists_remaining (replay_fails entryB) oldest_first
              entryA (page settingsABC) eq_refl) as (_ & _ & Hp & Hs).
  destruct (Hs eq_refl) as [_ Hsync].
  change (currentSettings (page settingsABC)) with settingsABC in Hp, Hsync.
  rewrite Hrem in Hp, Hsync.
  split_and!; [exact Hp|exact Hsync|].
  vm_compute. do 5 right. left.
Defined.

(** C1, as stated, fails when the clear call fails: Remove(A) on {A, B, C}
    persists nothing, and the store keeps {A, B, C}. *)
Lemma Remove_persists_nothing_after_failed_clear :
  let r := removeEntry clear_fails oldest_first entryA (page settingsABC) in
  persisted_since 0 r.2 = []
  ∧ sync r.2 = Some settingsABC
  ∧ sync r.2 ≠ Some (delete (keyForEntry entryA) settingsABC).
Proof.
  assert (sync (removeEntry clear_fails oldest_first entryA (page settingsABC)).2
          = Some settingsABC) as Hsync by (vm_compute; reflexivity).
  split; [by vm_compute|]. split; [exact Hsync|].
  rewrite Hsync. intros Hsome.
  assert (settingsABC = delete (keyForEntry entryA) settingsABC) as Heq
    by congruence.
  assert (delete (keyForEntry entryA) settingsABC !! keyForEntry entryA
          = Some entryA) as Hl.
  { rewrite <- Heq. apply lookup_insert_eq. }
  by rewrite lookup_delete_eq in Hl.
Qed.

(** C4 (amended). Remove is started on a page with no call to the
    synchronized store in flight, so that the mirror it reads after its clear
    call is the set it was started on. Every such execution of Remove starts
    with exactly one clear-all call to the rule engine and never issues
    another. When that call succeeds, the calls follow in this order: the clear-all call, which
    settles before any replay call is started; one replay set-call per
    remaining entry, all started before any of them settles and all settled
    before the persist is started; then the persist of the remaining set.
    Replay failures neither lead back to clearing nor abort the persist. When
    the clear-all call fails, Remove ends with that failure after this one
    call. *)
Theorem Remove_call_order outcome sched entry w :
  let n := length (calls w) in
  let rem := delete (keyForEntry entry) (currentSettings w) in
  let es := Object_values rem in
  let hp := S n + length es in
  let r := removeEntry outcome sched entry w in
  store_idle w = true →
  filter (λ c, is_clear c = true) (issued_since n r.2) = [CookiesClear]
  ∧ match outcome n CookiesClear with
    | Some e =>
        r.1 = Thrown (ExnLastError e)
        ∧ issued_since n r.2 = [CookiesClear]
        ∧ ∃ evs1, no_issue evs1
            ∧ log r.2 = log w ++ EIssue n CookiesClear :: evs1
            ∧ ESettle n (Rejected e) ∈ evs1
    | None =>
        issued_since n r.2 = CookiesClear :: (CookiesSet <$> es) ++ [SyncSet rem]
        ∧ ∃ evs1 evs2 evs3, no_issue evs1 ∧ no_issue evs2 ∧ no_issue evs3
            ∧ log r.2
              = log w ++ EIssue n CookiesClear :: evs1
                  ++ imap (λ i c, EIssue (i + S n) c) (CookiesSet <$> es)
                  ++ evs2 ++ EIssue hp (SyncSet rem) :: evs3
            ∧ ESettle n (Resolved VUndefined) ∈ evs1
            ∧ (∀ i entry', es !! i = Some entry' →
                 ∃ v, ESettle (S n + i)
                        (verdict outcome (S n + i) (CookiesSet entry') v) ∈ evs2)
            ∧ ∃ v, ESettle hp (verdict outcome hp (SyncSet rem) v) ∈ evs3
    end.
Proof.
  intros n rem es hp r _.
  pose proof (removeEntry_run outcome sched entry w) as Hrun.
  cbv zeta in Hrun. fold n rem es hp r in Hrun. destruct Hrun as [_ Hrun].
  destruct (outcome n CookiesClear) as [e|].
  - destruct Hrun as (Hr & Hiss & Hlog). split_and!; [by rewrite Hiss|done..].
  - destruct Hrun as (Hr & Hiss & _ & Hlog).
    split_and!; [by eapply filter_is_clear_remove|done..].
Qed.

(** C4, on the set {A, B, C}: the replay of B fails during Remove(A); the
    calls are the clear, the replays of the entries of {B, C}, and the
    persist of {B, C}. *)
Lemma Remove_A_call_order :
  let r := removeEntry (replay_fails entryB) oldest_first entryA (page settingsABC) in
  issued_since 0 r.2
  = CookiesClear :: (CookiesSet <$> Object_values settingsBC) ++ [SyncSet settingsBC]
  ∧ ∃ h, ESettle h (Rejected boom) ∈ log r.2.
Proof.
  assert (delete (keyForEntry entryA) settingsABC = settingsBC) as Hrem
    by (vm_compute; reflexivity).
  destruct (Remove_call_order (replay_fails entryB) oldest_first
              entryA (page settingsABC) eq_refl) as (_ & Hiss & _).
  change (currentSettings (page settingsABC)) with settingsABC in Hiss.
  rewrite Hrem in Hiss.
  split; [exact Hiss|].
  exists 1. vm_compute. do 5 right. left.
Defined.

(** On the set {A, B, C} with every call succeeding: the history of
    Remove(A) under the scheduler that completes the oldest call first. *)
Example Remove_A_history :
  log (removeEntry no_failure oldest_first entryA (page settingsABC)).2
  = [EIssue 0 CookiesClear; ESettle 0 (Resolved VUndefined); EStatus 0 [];
     EIssue 1 (CookiesSet entryB); EIssue 2 (CookiesSet entryC);
     ESettle 1 (Resolved VUndefined); EStatus 1 [];
     ESettle 2 (Resolved VUndefined); EStatus 2 [];
     EIssue 3 (SyncSet settingsBC);
     ESettle 3 (Resolved VUndefined); EStatus 3 []].
Proof. vm_compute. reflexivity. Qed.

(** C4, as stated, fails when the clear call fails: Remove(A) on {A, B, C}
    makes the clear call and no other, although B and C remain. *)
Lemma Remove_stops_after_failed_clear :
  let r := removeEntry clear_fails oldest_first entryA (page settingsABC) in
  r.1 = Thrown (ExnLastError boom)
  ∧ issued_since 0 r.2 = [CookiesClear]
  ∧ log r.2 = [EIssue 0 CookiesClear; ESettle 0 (Rejected boom);
               EStatus 0 (lit "boom")]
  ∧ Object_values (delete (keyForEntry entryA) settingsABC) = [entryB; entryC].
Proof. vm_compute. done. Qed.

(** C5 (amended). A confirmed ClearAll first clears the rule engine and,
    when that call has succeeded, then clears the synchronized store: two
    external calls in sequence, and only the first when it fails (a declined
    confirmation makes none). It never writes the in-memory mirror. When both
    calls succeed the persisted canonical set is empty; a second ClearAll
    right after the first ends the same way, also on the already empty set,
    since whether ClearAll fails depends on nothing but the outcomes of its
    own calls. When a call of ClearAll fails and nothing else is in flight,
    the store keeps the value it held before. *)
Theorem ClearAll_calls_and_idempotence outcome sched w :
  let n := length (calls w) in
  let r := clearAllButton_click outcome sched true w in
  let r' := clearAllButton_click outcome sched true r.2 in
  clearAllButton_click outcome sched false w = (Normal tt, w)
  ∧ currentSettings r.2 = currentSettings w
  ∧ issued_since n r.2
    = match outcome n CookiesClear with
      | None => [CookiesClear; SyncClear]
      | Some _ => [CookiesClear]
      end
  ∧ r.1 = match outcome n CookiesClear with
          | Some e => Thrown (ExnLastError e)
          | None => match outcome (S n) SyncClear with
                    | Some e => Thrown (ExnLastError e)
                    | None => Normal tt
                    end
          end
  ∧ (outcome n CookiesClear = None → outcome (S n) SyncClear = None →
     canonical (sync r.2) = ∅
     ∧ (outcome (S (S n)) CookiesClear = None →
        outcome (S (S (S n))) SyncClear = None →
        r'.1 = Normal tt ∧ canonical (sync r'.2) = ∅
        ∧ issued_since (S (S n)) r'.2 = [CookiesClear; SyncClear]))
  ∧ (unsettled w = 0 →
     outcome n CookiesClear ≠ None ∨ outcome (S n) SyncClear ≠ None →
     sync r.2 = sync w).
Proof.
  intros n r r'.
  destruct (clearAll_run outcome sched w) as (Hcur & Hiss & Hr & Hok & Hfail).
  fold n r in Hcur, Hiss, Hr, Hok, Hfail.
  split_and!; [done..| |done].
  intros Ho1 Ho2. destruct (Hok Ho1 Ho2) as [Hsync Hlen].
  split; [by rewrite Hsync|].
  intros Ho3 Ho4.
  destruct (clearAll_run outcome sched r.2) as (_ & Hiss' & Hr' & Hok' & _).
  rewrite Hlen in Hiss', Hr', Hok'. fold r' in Hiss', Hr', Hok'.
  rewrite Ho3 in Hiss', Hr'. rewrite Ho4 in Hr'.
  destruct (Hok' Ho3 Ho4) as [Hsync' _].
  split_and!; [done|by rewrite Hsync'|done].
Qed.

(** C5, on a store that holds {A, B, C} with every call succeeding: the
    canonical set is empty after the first ClearAll and after the second. *)
Lemma ClearAll_twice :
  let r := clearAllButton_click no_failure oldest_first true (page settingsABC) in
  let r' := clearAllButton_click no_failure oldest_first true r.2 in
  r.1 = Normal tt ∧ canonical (sync r.2) = ∅
  ∧ r'.1 = Normal tt ∧ canonical (sync r'.2) = ∅.
Proof.
  destruct (ClearAll_calls_and_idempotence no_failure oldest_first (page settingsABC))
    as (_ & _ & _ & Hr & Hok & _).
  destruct (Hok eq_refl eq_refl) as [Hsync Hsecond].
  destruct (Hsecond eq_refl eq_refl) as (Hr' & Hsync' & _).
  by split_and!.
Defined.

(** C5, as stated, fails when the engine's clear fails: ClearAll makes one
    external call, not two, and the store still holds {A, B, C}. *)
Lemma ClearAll_stops_after_failed_engine_clear :
  let r := clearAllButton_click clear_fails oldest_first true (page settingsABC) in
  r.1 = Thrown (ExnLastError boom)
  ∧ issued_since 0 r.2 = [CookiesClear]
  ∧ size (canonical (sync r.2)) = 3.
Proof. vm_compute. done. Qed.

(** C3 (amended). SetAll starts exactly one set-call per entry of the
    mirrored canonical set, N calls for N entries, and returns at once,
    without waiting: when it returns all N calls are still in flight and
    nothing has settled. It does not throw, whatever becomes of the calls
    (its run does not depend on their outcomes), and it alters neither the
    mirror nor the store; the later completion of a set-call, successful or
    not, alters neither of them either. *)
Theorem SetAll_replays_without_waiting w :
  let n := length (calls w) in
  let es := Object_values (currentSettings w) in
  let r := setAllButton_click w in
  r.1 = Normal tt
  ∧ issued_since n r.2 = CookiesSet <$> es
  ∧ length (issued_since n r.2) = size (currentSettings w)
  ∧ (∀ entry, CookiesSet entry ∈ issued_since n r.2
              ↔ ∃ key, currentSettings w !! key = Some entry)
  ∧ currentSettings r.2 = currentSettings w
  ∧ sync r.2 = sync w
  ∧ log r.2 = log w ++ imap (λ i c, EIssue (i + n) c) (CookiesSet <$> es)
  ∧ (∀ i, i < size (currentSettings w) → state_of r.2 (n + i) = None)
  ∧ unsettled r.2 = unsettled w + size (currentSettings w)
  ∧ (∀ outcome h entry w0,
       sync (complete outcome h (fresh true (CookiesSet entry)) w0) = sync w0
       ∧ currentSettings (complete outcome h (fresh true (CookiesSet entry)) w0)
         = currentSettings w0).
Proof.
  intros n es r. subst r n. rewrite setAll_run. fold es. cbn [fst snd].
  assert (length es = size (currentSettings w)) as Hlen
    by apply length_Object_values.
  split_and!; try done.
  - apply issued_since_issued_world.
  - by rewrite issued_since_issued_world, length_fmap.
  - intros entry. rewrite issued_since_issued_world.
    rewrite <- elem_of_Object_values. fold es.
    rewrite list_elem_of_fmap. split.
    + by intros (e & [= ->] & Hin).
    + intros Hin. by exists entry.
  - intros i Hi. rewrite <- Hlen in Hi.
    destruct (lookup_lt_is_Some_2 es i Hi) as [entry Hentry].
    unfold state_of.
    rewrite (issued_world_lookup_new true _ w i (CookiesSet entry)); [done|].
    by rewrite list_lookup_fmap, Hentry.
  - by rewrite issued_world_unsettled, length_fmap, Hlen.
  - intros outcome h entry w0.
    rewrite complete_sync, complete_currentSettings.
    split; [|done]. by destruct (outcome h _).
Qed.

(** C3, as stated, fails: on the set {A, B, C}, SetAll has returned while
    its three calls are in flight, none of them settled. *)
Lemma SetAll_returns_with_calls_in_flight :
  let r := setAllButton_click (page settingsABC) in
  r.1 = Normal tt
  ∧ length (issued_since 0 r.2) = 3
  ∧ unsettled r.2 = 3
  ∧ is_settled r.2 0 = false ∧ is_settled r.2 1 = false ∧ is_settled r.2 2 = false.
Proof. vm_compute. done. Qed.

(** C2 (amended). The key of a rule is its primary pattern, followed by
    the separator [;], followed by the secondary pattern when present and by
    the text [undefined] when it is absent (the add form leaves it absent
    when its input is empty). Two rules with equal primary pattern and equal
    (including both absent) secondary pattern have equal keys, so adding the
    second overwrites the first in the set that is persisted. *)
Theorem keyForEntry_spec :
  (∀ entry,
     keyForEntry entry
     = primaryPattern entry ++ lit ";"
         ++ match secondaryPattern entry with
            | Some secondary => secondary
            | None => lit "undefined"
            end)
  ∧ (∀ p v, keyForEntry (addForm_entry p [] v)
            = autoCompletePath p ++ lit ";undefined")
  ∧ (∀ e1 e2,
       primaryPattern e1 = primaryPattern e2 →
       secondaryPattern e1 = secondaryPattern e2 →
       keyForEntry e1 = keyForEntry e2)
  ∧ (∀ e1 e2 (settings : CookieSettings),
       primaryPattern e1 = primaryPattern e2 →
       secondaryPattern e1 = secondaryPattern e2 →
       <[keyForEntry e2 := e2]> (<[keyForEntry e1 := e1]> settings)
       = <[keyForEntry e2 := e2]> settings).
Proof.
  split_and!.
  - intros entry. unfold keyForEntry, to_string. by destruct (secondaryPattern entry).
  - done.
  - intros e1 e2 Hp Hs. unfold keyForEntry. by rewrite Hp, Hs.
  - intros e1 e2 settings Hp Hs.
    assert (keyForEntry e1 = keyForEntry e2) as ->
      by (unfold keyForEntry; by rewrite Hp, Hs).
    apply insert_insert_eq.
Qed.

(** C2, for two rules that differ in their setting only. *)
Lemma keyForEntry_same_patterns :
  keyForEntry entryA
  = keyForEntry {| primaryPattern := lit "a.com"; secondaryPattern := None;
                   setting := allow |}.
Proof.
  destruct keyForEntry_spec as (_ & _ & Heq & _).
  by apply Heq.
Defined.

(** C2, as stated, fails for a rule without secondary pattern: its key does
    not end with the separator. *)
Lemma keyForEntry_absent_secondary :
  secondaryPattern entryA = None
  ∧ keyForEntry entryA = lit "a.com;undefined"
  ∧ keyForEntry entryA ≠ primaryPattern entryA ++ lit ";" ++ [].
Proof. split_and!; [done|done|]. by vm_compute. Qed.

(** C7 (amended). Every call made through the wrapped adapter triggers
    exactly one status update, right after it settles, whether it succeeded
    or failed: of all that the event loop records about such a call, there
    is its settling, then one status update. The update shows nothing when
    [lastError] is unset; when it is set it shows the error's message if that
    is a non-empty text, and [Unknown error] if the error has no message or
    an empty one. It changes the status text and nothing else, and the states
    of the promises are the same with and without the hook. *)
Theorem status_update_after_settling outcome :
  (∀ c w, calls (api c w).2 !! length (calls w) = Some (fresh true c))
  ∧ (∀ w w' h q r,
       evolves outcome w w' → calls w !! h = Some q → req_state q = None →
       req_hooked q = true → state_of w' h = Some r →
       ∃ evs, log w' = log w ++ evs
         ∧ events_of h evs = [ESettle h r; EStatus h (render r)])
  ∧ (∀ w, statusText (updateStatus w)
          = match lastError w with
            | Some e => message_or_unknown e
            | None => []
            end)
  ∧ (∀ e m, message e = Some m → m ≠ [] → message_or_unknown e = m)
  ∧ (∀ e, message e = None ∨ message e = Some [] →
          message_or_unknown e = lit "Unknown error")
  ∧ (∀ w, currentSettings (updateStatus w) = currentSettings w
          ∧ table (updateStatus w) = table w
          ∧ lastError (updateStatus w) = lastError w
          ∧ sync (updateStatus w) = sync w
          ∧ calls (updateStatus w) = calls w
          ∧ log (updateStatus w) = log w)
  ∧ (∀ h c w, calls (complete outcome h (fresh true c) w)
              = calls (complete outcome h (fresh false c) w)).
Proof.
  split_and!.
  - intros c w. unfold api. rewrite issue_spec. cbn [snd].
    rewrite <- (Nat.add_0_r (length (calls w))).
    by apply issued_world_lookup_new.
  - intros w w' h q r Hev Hq Hs Hk Hr.
    destruct (evolves_events_of outcome w w' h q Hev Hq Hs) as (evs & Hlog & Hevs).
    rewrite Hr, Hk in Hevs. eauto.
  - intros w. unfold updateStatus. by destruct (lastError w).
  - intros e m Hm Hne. unfold message_or_unknown. rewrite Hm. by destruct m.
  - intros e [He|He]; unfold message_or_unknown; by rewrite He.
  - intros w. unfold updateStatus.
    destruct (lastError w) eqn:He; simpl; by rewrite ?He.
  - intros h c w. by rewrite !complete_calls.
Qed.

(** C7, on the set {A, B, C} after SetAll, when the replay of B completes
    with an error: what is recorded about that call is its settling and then
    one status update, which shows the message of the error. *)
Lemma status_update_of_failed_replay :
  let w := (setAllButton_click (page settingsABC)).2 in
  let w' := complete (replay_fails entryB) 0 (fresh true (CookiesSet entryB)) w in
  ∃ evs, log w' = log w ++ evs
    ∧ events_of 0 evs = [ESettle 0 (Rejected boom); EStatus 0 (lit "boom")].
Proof.
  intros w w'.
  destruct (status_update_after_settling (replay_fails entryB)) as (_ & Hone & _).
  apply (Hone w w' 0 (fresh true (CookiesSet entryB)) (Rejected boom)).
  - apply evolves_complete; by vm_compute.
  - by vm_compute.
  - done.
  - done.
  - by vm_compute.
Defined.

(** C7, as stated, fails for an error without message text: the status
    shows [Unknown error], which is not the (empty) message of the error. *)
Lemma status_of_error_without_message :
  let w := set_lastError (Some {| message := Some [] |}) (startup None) in
  statusText (updateStatus w) = lit "Unknown error"
  ∧ statusText (updateStatus w) ≠ [].
Proof. split; [done|]. by vm_compute. Qed.

(** C6. For every operation started through the adapter, wrapped or not:
    the promise it returns is pending until the callback fires; when the
    callback fires with [lastError] set, the promise rejects with that error;
    when [lastError] is unset, it resolves with exactly the value handed to
    the callback, whatever that is ([undefined] included). Accordingly, an
    [await] of the promise throws the error the runtime reported for the
    call, or returns the value the operation delivered. *)
Theorem adapter_settles_as_callback_says outcome sched hooked c w :
  let h := length (calls w) in
  (issue hooked c w).1 = Normal h
  ∧ state_of (issue hooked c w).2 h = None
  ∧ (∀ w1 q e v,
       calls w1 !! h = Some q → req_state q = None → lastError w1 = Some e →
       state_of (cb h v w1) h = Some (Rejected e))
  ∧ (∀ w1 q v,
       calls w1 !! h = Some q → req_state q = None → lastError w1 = None →
       state_of (cb h v w1) h = Some (Resolved v))
  ∧ ∃ w0, evolves outcome (issue hooked c w).2 w0
      ∧ (p ← issue hooked c; await outcome sched p) w
        = (match outcome h c with
           | Some e => Thrown (ExnLastError e)
           | None => Normal (serve c (sync w0)).2
           end,
           complete outcome h (fresh hooked c) w0).
Proof.
  intros h. rewrite issue_spec. cbn [fst snd].
  assert (∀ w1 q v, calls w1 !! h = Some q → req_state q = None →
            state_of (cb h v w1) h = Some (cb_outcome w1 v)) as Hcb.
  { intros w1 q v Hq Hs. unfold cb, state_of.
    rewrite lookup_calls_settle, decide_True by done.
    rewrite Hq. simpl. by rewrite Hs. }
  split_and!.
  - done.
  - unfold state_of. subst h. rewrite <- (Nat.add_0_r (length (calls w))).
    by rewrite (issued_world_lookup_new hooked [c] w 0 c).
  - intros w1 q e v Hq Hs He. rewrite (Hcb _ _ _ Hq Hs).
    unfold cb_outcome. by rewrite He.
  - intros w1 q v Hq Hs He. rewrite (Hcb _ _ _ Hq Hs).
    unfold cb_outcome. by rewrite He.
  - destruct (issue_await outcome sched hooked c w) as (w0 & Hev & _ & Heq).
    exists w0. split; [done|]. rewrite Heq. fold h. unfold verdict.
    by destruct (outcome h c).
Qed.

(** C6, for a [get] on a store that holds {A, B, C}: with no error the
    promise resolves with the items of the store, and with an error it rejects
    with that error. *)
Lemma adapter_get_resolves_or_rejects :
  let w := (issue false SyncGet (page settingsABC)).2 in
  state_of (cb 0 (VItems (Some settingsABC)) w) 0
  = Some (Resolved (VItems (Some settingsABC)))
  ∧ state_of (cb 0 VUndefined (set_lastError (Some boom) w)) 0
    = Some (Rejected boom).
Proof.
  intros w.
  destruct (adapter_settles_as_callback_says no_failure oldest_first false
              SyncGet (page settingsABC)) as (_ & _ & Hrej & Hres & _).
  split.
  - by apply (Hres w (fresh false SyncGet)).
  - by apply (Hrej _ (fresh false SyncGet)).
Defined.

(** C8. An absent persisted value is the empty rule set and no error:
    [onSyncedSettings] turns an absent value into the empty set; the initial
    load of a store that holds no value leaves the mirror empty, and ends
    normally with an empty status whenever the [get] itself succeeds; a change
    notification for the key without new value replaces the mirror with the
    empty set. *)
Theorem absent_value_is_empty_set outcome sched :
  (∀ w, onSyncedSettings None w
        = (Normal tt, set_table ∅ (set_currentSettings ∅ w)))
  ∧ (let r := initial_fetch outcome sched (startup None) in
     currentSettings r.2 = ∅
     ∧ (outcome 0 SyncGet = None → r.1 = Normal tt ∧ statusText r.2 = []))
  ∧ (∀ w, unsettled w = 0 → sync w = None →
          outcome (length (calls w)) SyncGet = None →
          let r := initial_fetch outcome sched w in
          r.1 = Normal tt ∧ currentSettings r.2 = ∅ ∧ statusText r.2 = [])
  ∧ (∀ w old,
       let r := onChanged_listener
                  (Some {| oldValue := old; newValue := None |}) w in
       r.1 = Normal tt ∧ currentSettings r.2 = ∅).
Proof.
  split_and!.
  - done.
  - pose proof (initial_fetch_run outcome sched (startup None) eq_refl) as Hrun.
    cbv zeta in Hrun. change (length (calls (startup None))) with 0 in Hrun.
    cbv zeta. destruct (outcome 0 SyncGet) as [e|].
    + destruct Hrun as [_ Hcur]. by rewrite Hcur.
    + destruct Hrun as (Hr & Hcur & _ & Hst). by rewrite Hcur.
  - intros w Hquiet Hsync Hok r.
    pose proof (initial_fetch_run outcome sched w Hquiet) as Hrun.
    cbv zeta in Hrun. rewrite Hok, Hsync in Hrun. fold r in Hrun.
    by destruct Hrun as (Hr & Hcur & _ & Hst).
  - done.
Qed.

(** C8, at the start of the page over an empty store, with every call
    succeeding. *)
Lemma initial_load_of_empty_store :
  let r := initial_fetch no_failure oldest_first (startup None) in
  r.1 = Normal tt ∧ currentSettings r.2 = ∅ ∧ statusText r.2 = [].
Proof.
  destruct (absent_value_is_empty_set no_failure oldest_first)
    as (_ & _ & Hload & _).
  by apply Hload.
Defined.

(** C9. No completion of a call, the completion of a persist included,
    writes the in-memory mirror, although a successful persist replaces the
    value in the store; Remove and AddOrReplace (and SetAll and ClearAll)
    leave the mirror as it was; the mirror is what [onSyncedSettings] makes
    it, which the load and the change listener call. *)
Theorem mirror_written_only_on_sync outcome sched :
  (∀ h q w, currentSettings (complete outcome h q w) = currentSettings w)
  ∧ (∀ h v w, outcome h (SyncSet v) = None →
              sync (complete outcome h (fresh true (SyncSet v)) w) = Some v)
  ∧ (∀ entry w,
       currentSettings (removeEntry outcome sched entry w).2 = currentSettings w)
  ∧ (∀ p s v w,
       currentSettings (addForm_submit outcome sched p s v w).2
       = currentSettings w)
  ∧ (∀ w, currentSettings (setAllButton_click w).2 = currentSettings w)
  ∧ (∀ b w,
       currentSettings (clearAllButton_click outcome sched b w).2
       = currentSettings w)
  ∧ (∀ v w, currentSettings (onSyncedSettings v w).2 = canonical v)
  ∧ (∀ change w,
       currentSettings (onChanged_listener (Some change) w).2
       = canonical (newValue change))
  ∧ (∀ w, currentSettings (onChanged_listener None w).2 = currentSettings w)
  ∧ (∀ w, unsettled w = 0 → outcome (length (calls w)) SyncGet = None →
          currentSettings (initial_fetch outcome sched w).2 = canonical (sync w)).
Proof.
  split_and!.
  - intros. apply complete_currentSettings.
  - intros h v w Hok. rewrite complete_sync. simpl. by rewrite Hok.
  - intros entry w. by destruct (removeEntry_run outcome sched entry w) as [? _].
  - intros p s v w. by destruct (addForm_run outcome sched p s v w) as [? _].
  - intros w. by rewrite setAll_run.
  - intros [] w; [|done].
    by destruct (clearAll_run outcome sched w) as [? _].
  - done.
  - done.
  - done.
  - intros w Hquiet Hok.
    pose proof (initial_fetch_run outcome sched w Hquiet) as Hrun.
    cbv zeta in Hrun. rewrite Hok in Hrun. by destruct Hrun as (_ & ? & _).
Qed.

(** C9, on the set {A, B, C}: after a successful Remove(A) the store holds
    {B, C} while the mirror still holds {A, B, C}, until the change
    notification replaces it. *)
Lemma mirror_after_Remove_A :
  let w := page settingsABC in
  let r := removeEntry no_failure oldest_first entryA w in
  let change := {| oldValue := Some settingsABC; newValue := sync r.2 |} in
  currentSettings r.2 = currentSettings w
  ∧ currentSettings (onChanged_listener (Some change) r.2).2
    = canonical (newValue change).
Proof.
  intros w r change.
  destruct (mirror_written_only_on_sync no_failure oldest_first)
    as (_ & _ & Hrem & _ & _ & _ & _ & Hchange & _).
  split; [exact (Hrem entryA w)|exact (Hchange change r.2)].
Defined.

(** C10 (amended). [autoCompletePath] appends [/*] to any pattern that, up
    to one trailing slash, which it drops, consists of a non-empty part free
    of line terminators (it may hold slashes), a double slash, and a
    non-empty part free of slashes; it returns every other pattern unchanged;
    and it is idempotent. *)
Theorem autoCompletePath_spec :
  (∀ p h, host_pattern h → p = h ∨ p = h ++ [slash] →
          autoCompletePath p = h ++ lit "/*")
  ∧ (∀ p, (∀ h, host_pattern h → ¬ (p = h ∨ p = h ++ [slash])) →
          autoCompletePath p = p)
  ∧ (∀ p, autoCompletePath (autoCompletePath p) = autoCompletePath p).
Proof.
  split_and!.
  - intros p h. apply autoCompletePath_match.
  - apply autoCompletePath_no_match.
  - apply autoCompletePath_idempotent.
Qed.

(** C10, for a scheme and a host with a trailing slash. *)
Lemma autoCompletePath_of_host_with_slash :
  autoCompletePath (lit "https://example.com/") = lit "https://example.com/*".
Proof.
  destruct autoCompletePath_spec as (Hmatch & _).
  apply (Hmatch _ (lit "https://example.com")); [|by right].
  exists (lit "https:"), (lit "example.com").
  split_and!; [done|done| |done|]; by vm_compute; repeat constructor.
Defined.

Lemma filter_slash_nil (l : jsstring) :
  Forall (λ c, not_slash c = true) l → filter (λ c, c = slash) l = [].
Proof.
  induction 1 as [|c l Hc _ IH]; [done|].
  apply not_slash_true in Hc. by rewrite filter_cons_False.
Qed.

(** A scheme and a host hold two slashes, those between them. *)
Lemma scheme_and_host_slashes h :
  scheme_and_host h → length (filter (λ c, c = slash) h) = 2.
Proof.
  intros (scheme & host & -> & _ & Hs & _ & Hh).
  rewrite !filter_app, !length_app.
  rewrite (filter_slash_nil scheme), (filter_slash_nil host); [done|done|].
  eapply Forall_impl; [exact Hs|]. by intros c [_ ?].
Qed.

(** C10, as stated, fails for a pattern with a path whose last segment
    follows a double slash: it is not a scheme and a host, with or without a
    trailing slash, and still [/*] is appended to it. *)
Lemma autoCompletePath_changes_pattern_with_path :
  let p := lit "http://a/b//c" in
  autoCompletePath p = lit "http://a/b//c/*"
  ∧ autoCompletePath p ≠ p
  ∧ ¬ ∃ h, scheme_and_host h ∧ (p = h ∨ p = h ++ [slash]).
Proof.
  split_and!; [by vm_compute|by vm_compute|].
  intros (h & Hh%scheme_and_host_slashes & [Hp|Hp]).
  - rewrite <- Hp in Hh. by vm_compute in Hh.
  - assert (length (filter (λ c, c = slash) (lit "http://a/b//c")) = 3) as H3.
    { rewrite Hp, filter_app, length_app, Hh. done. }
    by vm_compute in H3.
Qed.

(** ** [autoCompletePath] on sample patterns *)

Example autoCompletePath_host :
  autoCompletePath (lit "https://example.com") = lit "https://example.com/*".
Proof. vm_compute. reflexivity. Qed.

Example autoCompletePath_with_path :
  autoCompletePath (lit "https://example.com/a") = lit "https://example.com/a".
Proof. vm_compute. reflexivity. Qed.

Example autoCompletePath_completed :
  autoCompletePath (lit "https://example.com/*") = lit "https://example.com/*".
Proof. vm_compute. reflexivity. Qed.

Example autoCompletePath_no_scheme :
  autoCompletePath (lit "example.com") = lit "example.com".
Proof. vm_compute. reflexivity. Qed.

Example autoCompletePath_double_trailing_slash :
  autoCompletePath (lit "https://example.com//") = lit "https://example.com//".
Proof. vm_compute. reflexivity. Qed.

(** * Further properties of the page *)

(** ** [autoCompletePath] *)

Lemma autoCompletePath_shape p :
  autoCompletePath p = p
  ∨ ∃ h, host_pattern h ∧ (p = h ∨ p = h ++ [slash])
      ∧ autoCompletePath p = h ++ lit "/*".
Proof.
  destruct (match_anchored patternWithoutPath 2 p) as [m|] eqn:Hm.
  - right. destruct (match_sound p m Hm) as (h & Hh & Hp & _).
    exists h. split_and!; [done..|]. by apply autoCompletePath_match.
  - left. unfold autoCompletePath. by rewrite Hm.
Qed.

Lemma autoCompletePath_nonempty p : p ≠ [] → autoCompletePath p ≠ [].
Proof.
  intros Hp. destruct (autoCompletePath_shape p) as [->|(h & _ & _ & ->)]; [done|].
  by destruct h.
Qed.

Lemma has_double_slash_count p :
  has_double_slash p → 2 ≤ length (filter (λ c, c = slash) p).
Proof.
  intros (a & b & ->). rewrite !filter_app, !length_app.
  change (length (filter (λ c, c = slash) [slash; slash])) with 2. lia.
Qed.

(** A pattern that holds no double slash is returned unchanged: without a
    [//] the expression cannot match. *)
Theorem autoCompletePath_without_double_slash p :
  ¬ has_double_slash p → autoCompletePath p = p.
Proof.
  intros Hno. apply autoCompletePath_no_match.
  intros h (A & B & -> & _) [->| ->]; apply Hno.
  - by exists A, B.
  - exists A, (B ++ [slash]). by rewrite <- !app_assoc.
Qed.

(** A host pattern without scheme holds no double slash. *)
Lemma autoCompletePath_of_bare_host :
  autoCompletePath (lit "[*.]example.com") = lit "[*.]example.com".
Proof.
  apply autoCompletePath_without_double_slash.
  intros H%has_double_slash_count. vm_compute in H. lia.
Defined.

(** [autoCompletePath] keeps the text it is given: the result starts with
    the whole input, or the input ends with a slash and the result is the
    input with [*] appended; so the result is never shorter than the input,
    at most two code units longer, and empty only for the empty input. *)
Theorem autoCompletePath_keeps_input p :
  (p `prefix_of` autoCompletePath p
   ∨ ∃ stem, p = stem ++ [slash] ∧ autoCompletePath p = p ++ lit "*")
  ∧ length p ≤ length (autoCompletePath p) ≤ length p + 2
  ∧ (autoCompletePath p = [] ↔ p = []).
Proof.
  assert (autoCompletePath p = [] ↔ p = []) as Hnil.
  { split.
    - intros Hres. destruct (decide (p = [])) as [|Hne]; [done|].
      by destruct (autoCompletePath_nonempty p Hne).
    - by intros ->. }
  destruct (autoCompletePath_shape p) as [Hid|(h & _ & [->| ->] & Hres)].
  - rewrite Hid. split_and!; [by left|lia..|done].
  - rewrite Hres in Hnil |- *. split_and!; [left; by eexists| | |done];
      rewrite length_app; change (length (lit "/*")) with 2; lia.
  - rewrite Hres in Hnil |- *. split_and!; [right| | |done].
    + exists h. split; [done|]. by rewrite <- app_assoc.
    + rewrite !length_app. change (length (lit "/*")) with 2. simpl. lia.
    + rewrite !length_app. change (length (lit "/*")) with 2. simpl. lia.
Qed.

(** ** Keys *)

Lemma app_sep_inj (c : N) (p1 p2 s1 s2 : jsstring) :
  c ∉ p1 → c ∉ p2 → p1 ++ c :: s1 = p2 ++ c :: s2 → p1 = p2 ∧ s1 = s2.
Proof.
  revert p2. induction p1 as [|x p1 IH]; intros [|y p2] H1 H2 Heq;
    simplify_eq/=.
  - done.
  - destruct H2. by left.
  - destruct H1. by left.
  - destruct (IH p2) as [-> ->]; [| |done|done].
    + intros ?. apply H1. by right.
    + intros ?. apply H2. by right.
Qed.

(** The key tells rules apart as long as no primary pattern holds the
    separator [;] and no secondary pattern is the text [undefined]: two such
    rules with the same key have the same patterns. *)
Theorem keyForEntry_injective e1 e2 :
  semicolon ∉ primaryPattern e1 → semicolon ∉ primaryPattern e2 →
  secondaryPattern e1 ≠ Some (lit "undefined") →
  secondaryPattern e2 ≠ Some (lit "undefined") →
  keyForEntry e1 = keyForEntry e2 →
  primaryPattern e1 = primaryPattern e2
  ∧ secondaryPattern e1 = secondaryPattern e2.
Proof.
  intros H1 H2 Hu1 Hu2 Hkey. unfold keyForEntry in Hkey.
  change (lit ";") with [semicolon] in Hkey.
  destruct (app_sep_inj semicolon _ _ _ _ H1 H2 Hkey) as [Hp Hs].
  split; [done|].
  destruct (secondaryPattern e1) as [s1|], (secondaryPattern e2) as [s2|];
    simpl in Hs; congruence.
Qed.

(** Rule B and the rule the add form builds from its patterns have one key. *)
Lemma keyForEntry_injective_on_samples :
  primaryPattern entryB = primaryPattern (addForm_entry (lit "b.com") (lit "t.com") block)
  ∧ secondaryPattern entryB
    = secondaryPattern (addForm_entry (lit "b.com") (lit "t.com") block).
Proof.
  apply keyForEntry_injective.
  - apply (bool_decide_unpack _). by vm_compute.
  - apply (bool_decide_unpack _). by vm_compute.
  - by vm_compute.
  - by vm_compute.
  - by vm_compute.
Defined.

(** Without these conditions keys collide: a separator in the primary
    pattern, or the text [undefined] as secondary pattern. *)
Example keyForEntry_collisions :
  keyForEntry {| primaryPattern := lit "a;b"; secondaryPattern := Some (lit "c");
                 setting := allow |}
  = keyForEntry {| primaryPattern := lit "a"; secondaryPattern := Some (lit "b;c");
                   setting := allow |}
  ∧ keyForEntry {| primaryPattern := lit "a"; secondaryPattern := None;
                   setting := allow |}
    = keyForEntry {| primaryPattern := lit "a";
                     secondaryPattern := Some (lit "undefined"); setting := allow |}.
Proof. by vm_compute. Qed.

(** The add form normalises what is typed: completed patterns typed in again
    give the same entry, hence the same key. The secondary pattern of the
    entry is absent exactly when the secondary input is empty, and is never
    the empty text: a secondary input that is not empty gives its
    completion. *)
Theorem addForm_entry_normal p s v :
  addForm_entry (autoCompletePath p) (autoCompletePath s) v = addForm_entry p s v
  ∧ (secondaryPattern (addForm_entry p s v) = None ↔ s = [])
  ∧ secondaryPattern (addForm_entry p s v) ≠ Some []
  ∧ (s ≠ [] → secondaryPattern (addForm_entry p s v) = Some (autoCompletePath s)).
Proof.
  split_and!.
  - unfold addForm_entry. rewrite autoCompletePath_idempotent. f_equal.
    destruct s as [|c s]; [done|].
    pose proof (autoCompletePath_nonempty (c :: s) ltac:(done)) as Hne.
    pose proof (autoCompletePath_idempotent (c :: s)) as Hid.
    destruct (autoCompletePath (c :: s)) as [|c' s'] eqn:Hq; [done|].
    by rewrite Hid.
  - destruct s as [|c s]; cbn [addForm_entry secondaryPattern]; by split.
  - destruct s as [|c s]; cbn [addForm_entry secondaryPattern]; [done|].
    pose proof (autoCompletePath_nonempty (c :: s) ltac:(done)) as Hne.
    congruence.
  - destruct s as [|c s]; [done|]. by intros _.
Qed.

(** ** The table *)

Lemma str_leb_total a b : str_leb a b = true ∨ str_leb b a = true.
Proof.
  revert b. induction a as [|x a IH]; intros [|y b]; simpl; auto.
  destruct (N.ltb_spec x y), (N.ltb_spec y x); auto; lia.
Qed.

Lemma str_leb_trans a b c :
  str_leb a b = true → str_leb b c = true → str_leb a c = true.
Proof.
  revert b c. induction a as [|x a IH]; intros [|y b] [|z c]; simpl; try done.
  destruct (N.ltb_spec x y), (N.ltb_spec y x), (N.ltb_spec y z),
    (N.ltb_spec z y), (N.ltb_spec x z), (N.ltb_spec z x);
    try done; try lia; eauto.
Qed.

Global Instance str_le_total : Total str_le.
Proof. intros a b. apply str_leb_total. Qed.

Global Instance str_le_trans : Transitive str_le.
Proof. intros a b c. apply str_leb_trans. Qed.

Lemma omap_lookup_rows (m : CookieSettings) keys :
  Forall (λ key, is_Some (m !! key)) keys →
  Forall2 (λ key row, ∃ entry, m !! key = Some entry ∧ row = createTableRow entry)
    keys (omap (λ key, createTableRow <$> m !! key) keys).
Proof.
  induction 1 as [|key keys [entry Hentry] _ IH]; [constructor|].
  cbn [omap list_omap]. rewrite Hentry. cbn [fmap option_fmap option_map].
  constructor; [by exists entry|exact IH].
Qed.

Lemma Object_keys_spec (m : CookieSettings) key :
  key ∈ Object_keys m ↔ is_Some (m !! key).
Proof.
  unfold Object_keys. rewrite list_elem_of_fmap. split.
  - intros ([k e] & -> & Hin%elem_of_map_to_list). by exists e.
  - intros [e He]. exists (key, e). split; [done|]. by apply elem_of_map_to_list.
Qed.

Lemma tableBody_keys (m : CookieSettings) :
  let keys := merge_sort str_le (Object_keys m) in
  StronglySorted str_le keys ∧ NoDup keys
  ∧ (∀ key, key ∈ keys ↔ is_Some (m !! key))
  ∧ Forall2 (λ key row, ∃ entry, m !! key = Some entry ∧ row = createTableRow entry)
      keys (tableBody m).
Proof.
  intros keys.
  assert (keys ≡ₚ Object_keys m) as Hperm by apply merge_sort_Permutation.
  assert (∀ key, key ∈ keys ↔ is_Some (m !! key)) as Hin.
  { intros key. by rewrite Hperm, Object_keys_spec. }
  split_and!.
  - apply StronglySorted_merge_sort; apply _.
  - rewrite Hperm. apply NoDup_fst_map_to_list.
  - done.
  - apply omap_lookup_rows. rewrite Forall_forall. intros key. apply Hin.
Qed.

Lemma Forall2_rows_perm (m : CookieSettings) keys rws :
  NoDup keys → (∀ key, key ∈ keys ↔ is_Some (m !! key)) →
  Forall2 (λ key row, ∃ entry, m !! key = Some entry ∧ row = createTableRow entry)
    keys rws →
  zip keys (removeButton <$> rws) ≡ₚ map_to_list m.
Proof.
  intros Hnd Hin Hrows.
  apply NoDup_Permutation.
  - apply (NoDup_fmap_1 fst). rewrite fst_zip; [done|].
    rewrite length_fmap. by rewrite (Forall2_length _ _ _ Hrows).
  - apply NoDup_map_to_list.
  - intros [key entry]. rewrite elem_of_map_to_list. split.
    + intros Hz. apply elem_of_lookup_zip_with in Hz
        as (i & k & e & [= <- <-] & Hk & He).
      rewrite list_lookup_fmap in He.
      destruct (rws !! i) as [row|] eqn:Hrow; [|done]. simplify_eq/=.
      destruct (Forall2_lookup_lr _ _ _ _ _ _ Hrows Hk Hrow) as (entry & Hm & ->).
      done.
    + intros Hm.
      assert (key ∈ keys) as (i & Hk)%list_elem_of_lookup_1 by (apply Hin; eauto).
      destruct (Forall2_lookup_l _ _ _ _ _ Hrows Hk) as (row & Hrow & entry' & Hm' & ->).
      assert (entry' = entry) as -> by congruence.
      apply elem_of_lookup_zip_with. exists i, key, entry.
      split_and!; [done..|]. by rewrite list_lookup_fmap, Hrow.
Qed.

Lemma tableBody_Permutation (m : CookieSettings) :
  removeButton <$> tableBody m ≡ₚ Object_values m.
Proof.
  destruct (tableBody_keys m) as (_ & Hnd & Hin & Hrows).
  set (keys := merge_sort str_le (Object_keys m)) in *.
  pose proof (Forall2_rows_perm m keys _ Hnd Hin Hrows) as Hperm.
  unfold Object_values. rewrite <- Hperm.
  rewrite snd_zip; [done|].
  rewrite length_fmap, (Forall2_length _ _ _ Hrows). lia.
Qed.

Lemma length_tableBody (m : CookieSettings) : length (tableBody m) = size m.
Proof.
  rewrite <- (length_fmap removeButton), tableBody_Permutation.
  apply length_Object_values.
Qed.

(** The table shows the set it is given, one row per entry, in the order
    of the keys: the Remove buttons of its rows hold the entries of the set,
    each once per key; the rows follow the keys in ascending order of their
    code units; and when every entry is stored under its own key, the rows
    are in ascending order of the keys of their entries. *)
Theorem tableBody_shows_sorted_entries (m : CookieSettings) :
  removeButton <$> tableBody m ≡ₚ Object_values m
  ∧ length (tableBody m) = size m
  ∧ (∃ keys, StronglySorted str_le keys
       ∧ Forall2 (λ key row, ∃ entry, m !! key = Some entry
                               ∧ row = createTableRow entry)
           keys (tableBody m))
  ∧ (well_keyed m →
     StronglySorted
       (λ row1 row2, str_le (keyForEntry (removeButton row1))
                       (keyForEntry (removeButton row2)))
       (tableBody m)).
Proof.
  destruct (tableBody_keys m) as (Hsorted & _ & _ & Hrows).
  set (keys := merge_sort str_le (Object_keys m)) in *.
  split_and!.
  - apply tableBody_Permutation.
  - apply length_tableBody.
  - by exists keys.
  - intros Hwk.
    induction Hrows as [|key row keys' rws (entry & Hm & ->) Hrows IH];
      [constructor|].
    apply StronglySorted_inv in Hsorted as [Hsorted Hhd].
    constructor; [by apply IH|].
    rewrite Forall_forall. intros row' Hrow'.
    apply list_elem_of_lookup_1 in Hrow' as [i Hrow'].
    destruct (Forall2_lookup_r _ _ _ _ _ Hrows Hrow') as (key' & Hkey' & entry' & Hm' & ->).
    simpl. rewrite <- (Hwk _ _ Hm), <- (Hwk _ _ Hm').
    rewrite Forall_forall in Hhd. apply Hhd.
    by eapply list_elem_of_lookup_2.
Qed.

(** The table of the set {A, B, C}. *)
Example tableBody_settingsABC :
  tableBody settingsABC
  = [createTableRow entryA; createTableRow entryB; createTableRow entryC]
  ∧ secondaryPatternCell <$> tableBody settingsABC
    = [lit "*"; lit "t.com"; lit "*"].
Proof. by vm_compute. Qed.

(** ** The handlers: what their runs leave behind *)

Lemma length_issued_since n w :
  length (issued_since n w) = length (calls w) - n.
Proof. unfold issued_since. by rewrite length_drop, length_fmap. Qed.

(** The last step of Remove is the completion of the call it awaited last:
    the clear when that fails, the persist otherwise. *)
Lemma removeEntry_last outcome sched entry w :
  let n := length (calls w) in
  let rem := delete (keyForEntry entry) (currentSettings w) in
  let hp := S n + size rem in
  let r := removeEntry outcome sched entry w in
  ∃ w0, r.2 = match outcome n CookiesClear with
              | Some _ => complete outcome n (fresh true CookiesClear) w0
              | None => complete outcome hp (fresh true (SyncSet rem)) w0
              end.
Proof.
  intros n rem hp r. subst r. unfold removeEntry.
  next_call (@bind_call outcome sched) w0 Hev Hq0. fold n in Hq0 |- *.
  pose proof (awaited_currentSettings _ _ _ _ Hev) as Hcur.
  pose proof (awaited_length_calls _ _ _ _ Hev) as Hlen.
  fold n in Hcur, Hlen.
  set (w1 := complete outcome n (fresh true CookiesClear) w0) in *.
  destruct (outcome n CookiesClear) as [e|] eqn:Ho; cbn [fst snd].
  { by exists w0. }
  rewrite bind_gets, Hcur. fold rem.
  rewrite bind_mapM_api, Hlen.
  match goal with
  | |- context [ mbind ?k (await_allSettled _ _ ?hs) ?w ] =>
      destruct (bind_allSettled outcome sched hs k w) as (w3 & Hev3 & Hall3 & Heq)
  end.
  { rewrite Forall_forall. intros h Hin%list_elem_of_In%in_seq.
    rewrite issued_world_length_calls, length_fmap, Hlen. lia. }
  rewrite Heq. clear Heq.
  assert (length (calls w3) = hp) as Hlen3.
  { rewrite (evolves_length_calls _ _ _ Hev3), issued_world_length_calls.
    rewrite length_fmap, length_Object_values, Hlen. done. }
  next_call (@bind_call outcome sched) w4 Hev4 Hq4. rewrite Hlen3.
  exists w4. by destruct (outcome hp (SyncSet rem)).
Qed.

(** When a Remove that was started with no call to the store in flight has
    finished, the status shows the outcome of the call it awaited last, the
    clear that failed or else the persist of the remaining set: the failure
    of a replay call is no longer on display. The error signal is unset
    again. *)
Theorem Remove_final_status outcome sched entry w :
  let n := length (calls w) in
  let rem := delete (keyForEntry entry) (currentSettings w) in
  let hp := S n + size rem in
  let r := removeEntry outcome sched entry w in
  store_idle w = true →
  statusText r.2
  = match outcome n CookiesClear with
    | Some e => message_or_unknown e
    | None => match outcome hp (SyncSet rem) with
              | Some e => message_or_unknown e
              | None => []
              end
    end
  ∧ lastError r.2 = None.
Proof.
  intros n rem hp r _.
  destruct (removeEntry_last outcome sched entry w) as [w0 Hlast].
  fold n rem hp r in Hlast. rewrite Hlast.
  destruct (outcome n CookiesClear) as [e|] eqn:Ho;
    rewrite complete_statusText, complete_lastError; cbn [req_hooked req_call fresh];
    by rewrite ?Ho.
Qed.

(** Remove(A) on the set {A, B, C}: the replay of B fails and the persist
    succeeds, and the status is empty in the end; when the persist fails, the
    status shows its error. *)
Lemma Remove_final_status_on_samples :
  statusText (removeEntry (replay_fails entryB) oldest_first entryA
                (page settingsABC)).2 = []
  ∧ statusText (removeEntry persist_fails oldest_first entryA
                  (page settingsABC)).2 = lit "boom".
Proof.
  destruct (Remove_final_status (replay_fails entryB) oldest_first entryA
              (page settingsABC) eq_refl) as [Hreplay _].
  destruct (Remove_final_status persist_fails oldest_first entryA
              (page settingsABC) eq_refl) as [Hpersist _].
  split; [exact Hreplay|exact Hpersist].
Defined.

(** The last step of AddOrReplace, with the store as it was found when
    nothing else is in flight. *)
Lemma addForm_last outcome sched p s v w :
  let n := length (calls w) in
  let entry := addForm_entry p s v in
  let new := <[keyForEntry entry := entry]> (currentSettings w) in
  let r := addForm_submit outcome sched p s v w in
  ∃ w0, (unsettled w = 0 → sync w0 = sync w)
    ∧ r.2 = match outcome n (CookiesSet entry) with
            | Some _ => complete outcome n (fresh true (CookiesSet entry)) w0
            | None => complete outcome (S n) (fresh true (SyncSet new)) w0
            end.
Proof.
  intros n entry new r. subst r. unfold addForm_submit. fold entry.
  next_call (@bind_call outcome sched) w0 Hev Hq0. fold n in Hq0 |- *.
  pose proof (awaited_currentSettings _ _ _ _ Hev) as Hcur.
  pose proof (awaited_length_calls _ _ _ _ Hev) as Hlen.
  pose proof (awaited_sync outcome (CookiesSet entry) w w0) as Hsync.
  pose proof (awaited_quiet _ _ _ _ Hev Hq0) as Hquiet.
  pose proof (awaited_unsettled _ _ _ _ Hev Hq0) as Hquiet'.
  fold n in Hcur, Hlen, Hsync, Hquiet'.
  set (w1 := complete outcome n (fresh true (CookiesSet entry)) w0) in *.
  destruct (outcome n (CookiesSet entry)) as [e|] eqn:Ho; cbn [fst snd].
  { exists w0. split; [|done]. intros Hq. by rewrite (Hquiet Hq). }
  rewrite bind_gets, Hcur. fold new.
  next_call (@bind_call outcome sched) w2 Hev2 Hq2.
  pose proof (awaited_quiet _ _ _ _ Hev2 Hq2) as Hquiet2.
  rewrite Hlen in Hq2 |- *.
  exists w2. split.
  - intros Hq. rewrite (Hquiet2 (Hquiet' Hq)), issued_world_sync, Hsync.
    cbn [serve fst]. by rewrite (Hquiet Hq).
  - by destruct (outcome (S n) (SyncSet new)).
Qed.

(** AddOrReplace, started with no call to the store in flight, sets the
    rule in the engine first and, only when that call has succeeded, persists
    the mirrored set with the rule under its key, every other key as it was. When both calls succeed the store holds that
    set. When one of them fails the handler ends with that error and, with
    nothing else in flight, the store keeps its value: a rule may then be in
    the engine and not in the store. The status shows the outcome of the call
    made last. *)
Theorem AddOrReplace_sets_then_persists outcome sched p s v w :
  let n := length (calls w) in
  let entry := addForm_entry p s v in
  let new := <[keyForEntry entry := entry]> (currentSettings w) in
  let r := addForm_submit outcome sched p s v w in
  store_idle w = true →
  new !! keyForEntry entry = Some entry
  ∧ (∀ key, key ≠ keyForEntry entry → new !! key = currentSettings w !! key)
  ∧ issued_since n r.2
    = match outcome n (CookiesSet entry) with
      | None => [CookiesSet entry; SyncSet new]
      | Some _ => [CookiesSet entry]
      end
  ∧ r.1 = match outcome n (CookiesSet entry) with
          | Some e => Thrown (ExnLastError e)
          | None => match outcome (S n) (SyncSet new) with
                    | Some e => Thrown (ExnLastError e)
                    | None => Normal tt
                    end
          end
  ∧ statusText r.2
    = match outcome n (CookiesSet entry) with
      | Some e => message_or_unknown e
      | None => match outcome (S n) (SyncSet new) with
                | Some e => message_or_unknown e
                | None => []
                end
      end
  ∧ (outcome n (CookiesSet entry) = None → outcome (S n) (SyncSet new) = None →
     sync r.2 = Some new)
  ∧ (unsettled w = 0 →
     outcome n (CookiesSet entry) ≠ None ∨ outcome (S n) (SyncSet new) ≠ None →
     sync r.2 = sync w).
Proof.
  intros n entry new r _.
  destruct (addForm_run outcome sched p s v w) as (_ & Hiss & Hr & Hok).
  destruct (addForm_last outcome sched p s v w) as (w0 & Hquiet & Hlast).
  fold n entry new r in Hiss, Hr, Hok, Hlast.
  split_and!; [apply lookup_insert_eq| |done|done| |done|].
  - intros key Hkey. by apply lookup_insert_ne.
  - rewrite Hlast.
    destruct (outcome n (CookiesSet entry)) as [e|] eqn:Ho;
      rewrite complete_statusText; cbn [req_hooked req_call fresh];
      by rewrite ?Ho.
  - intros Hq Hfail. rewrite Hlast.
    destruct (outcome n (CookiesSet entry)) as [e|] eqn:Ho;
      rewrite complete_sync; cbn [req_call fresh].
    + rewrite Ho. by apply Hquiet.
    + destruct (outcome (S n) (SyncSet new)) as [e|] eqn:Ho2.
      * by apply Hquiet.
      * by destruct Hfail.
Qed.

(** Rule A, added to the set {B, C}: both calls are made, and the store
    holds {A, B, C}. *)
Lemma AddOrReplace_A_on_samples :
  let entry := addForm_entry (lit "a.com") [] block in
  let new := <[keyForEntry entry := entry]> (currentSettings (page settingsBC)) in
  let r := addForm_submit no_failure oldest_first (lit "a.com") [] block
             (page settingsBC) in
  issued_since 0 r.2 = [CookiesSet entry; SyncSet new]
  ∧ r.1 = Normal tt
  ∧ sync r.2 = Some new.
Proof.
  intros entry new r.
  destruct (AddOrReplace_sets_then_persists no_failure oldest_first (lit "a.com")
              [] block (page settingsBC) eq_refl)
    as (_ & _ & Hiss & Hr & _ & Hsync & _).
  split_and!; [exact Hiss|exact Hr|exact (Hsync eq_refl eq_refl)].
Defined.

(** ** Handlers, notifications and the table together *)

Lemma notified_currentSettings old w :
  currentSettings (notified old w) = canonical (sync w).
Proof. done. Qed.

Lemma notified_rows old w : rows (notified old w) = tableBody (canonical (sync w)).
Proof. done. Qed.

Lemma notified_calls old w : calls (notified old w) = calls w.
Proof. done. Qed.

Lemma elem_of_tableBody (m : CookieSettings) row :
  row ∈ tableBody m ↔ ∃ key entry, m !! key = Some entry ∧ row = createTableRow entry.
Proof.
  destruct (tableBody_keys m) as (_ & _ & Hin & Hrows).
  set (keys := merge_sort str_le (Object_keys m)) in *.
  split.
  - intros [i Hrow]%list_elem_of_lookup_1.
    destruct (Forall2_lookup_r _ _ _ _ _ Hrows Hrow) as (key & _ & entry & Hm & ->).
    eauto.
  - intros (key & entry & Hm & ->).
    assert (key ∈ keys) as [i Hk]%list_elem_of_lookup_1 by (apply Hin; eauto).
    destruct (Forall2_lookup_l _ _ _ _ _ Hrows Hk) as (row & Hrow & entry' & Hm' & ->).
    assert (entry' = entry) as -> by congruence.
    by eapply list_elem_of_lookup_2.
Qed.

Lemma well_keyed_empty : well_keyed ∅.
Proof. intros key entry. by rewrite lookup_empty. Qed.

Lemma well_keyed_insert (m : CookieSettings) entry :
  well_keyed m → well_keyed (<[keyForEntry entry := entry]> m).
Proof.
  intros Hm key entry'. rewrite lookup_insert_Some.
  intros [[<- <-]|[_ ?]]; [done|by apply Hm].
Qed.

Lemma well_keyed_delete (m : CookieSettings) key :
  well_keyed m → well_keyed (delete key m).
Proof.
  intros Hm key' entry'. rewrite lookup_delete_Some. intros [_ ?]. by apply Hm.
Qed.

Lemma well_keyed_settingsABC : well_keyed settingsABC.
Proof. repeat apply well_keyed_insert. apply well_keyed_empty. Qed.

(** After a successful AddOrReplace, started with no call to the store in
    flight, and the change notification that follows it, the mirror holds the new rule under its key, every other key
    as before, and the table shows a row for the rule. *)
Theorem added_rule_is_shown outcome sched p s v old w :
  let n := length (calls w) in
  let entry := addForm_entry p s v in
  let new := <[keyForEntry entry := entry]> (currentSettings w) in
  let w' := notified old (addForm_submit outcome sched p s v w).2 in
  store_idle w = true →
  outcome n (CookiesSet entry) = None → outcome (S n) (SyncSet new) = None →
  currentSettings w' !! keyForEntry entry = Some entry
  ∧ (∀ key, key ≠ keyForEntry entry →
       currentSettings w' !! key = currentSettings w !! key)
  ∧ createTableRow entry ∈ rows w'
  ∧ length (rows w') = size new.
Proof.
  intros n entry new w' _ Ho1 Ho2.
  destruct (addForm_run outcome sched p s v w) as (_ & _ & _ & Hok).
  specialize (Hok Ho1 Ho2).
  assert (currentSettings w' = new) as Hcur.
  { subst w'. by rewrite notified_currentSettings, Hok. }
  assert (rows w' = tableBody new) as Hrows.
  { subst w'. by rewrite notified_rows, Hok. }
  rewrite Hcur, Hrows. split_and!.
  - apply lookup_insert_eq.
  - intros key Hkey. by apply lookup_insert_ne.
  - apply elem_of_tableBody. exists (keyForEntry entry), entry.
    split; [apply lookup_insert_eq|done].
  - apply length_tableBody.
Qed.

(** Rule A, added to the set {B, C}. *)
Lemma added_rule_is_shown_on_samples :
  let entry := addForm_entry (lit "a.com") [] block in
  let w' := notified (Some settingsBC)
              (addForm_submit no_failure oldest_first (lit "a.com") [] block
                 (page settingsBC)).2 in
  currentSettings w' !! keyForEntry entry = Some entry
  ∧ createTableRow entry ∈ rows w'.
Proof.
  intros entry w'.
  destruct (added_rule_is_shown no_failure oldest_first (lit "a.com") [] block
              (Some settingsBC) (page settingsBC) eq_refl eq_refl eq_refl)
    as (Hlookup & _ & Hrow & _).
  split; [exact Hlookup|exact Hrow].
Defined.

(** Adding a rule whose key is free and removing it again gives back the
    set: started with no call to the store in flight, with every call
    succeeding and the notification delivered in between, Remove persists
    exactly the set the page started with. *)
Theorem add_then_remove_restores outcome sched p s v old w :
  let n := length (calls w) in
  let entry := addForm_entry p s v in
  let new := <[keyForEntry entry := entry]> (currentSettings w) in
  let w1 := notified old (addForm_submit outcome sched p s v w).2 in
  let r := removeEntry outcome sched entry w1 in
  store_idle w = true →
  currentSettings w !! keyForEntry entry = None →
  outcome n (CookiesSet entry) = None → outcome (S n) (SyncSet new) = None →
  outcome (S (S n)) CookiesClear = None →
  outcome (S (S (S n)) + size (currentSettings w)) (SyncSet (currentSettings w))
  = None →
  r.1 = Normal tt ∧ sync r.2 = Some (currentSettings w)
  ∧ persisted_since (S (S n)) r.2 = [currentSettings w].
Proof.
  intros n entry new w1 r _ Hfree Ho1 Ho2 Ho3 Ho4.
  destruct (addForm_run outcome sched p s v w) as (_ & Hiss & _ & Hok).
  specialize (Hok Ho1 Ho2). fold n entry new in Hiss, Hok.
  rewrite Ho1 in Hiss.
  assert (length (calls w1) = S (S n)) as Hlen.
  { subst w1. rewrite notified_calls.
    pose proof (length_issued_since n (addForm_submit outcome sched p s v w).2) as Hl.
    rewrite Hiss in Hl. simpl in Hl. lia. }
  assert (delete (keyForEntry entry) (currentSettings w1) = currentSettings w) as Hrem.
  { subst w1. rewrite notified_currentSettings, Hok. by apply delete_insert_id. }
  pose proof (removeEntry_run outcome sched entry w1) as Hrun.
  cbv zeta in Hrun. rewrite Hlen, Hrem, length_Object_values in Hrun.
  fold r in Hrun. rewrite Ho3, Ho4 in Hrun.
  destruct Hrun as (_ & Hr & Hiss' & Hsync & _).
  split_and!; [done|by apply Hsync|].
  by eapply persisted_since_remove.
Qed.

(** Rule A, added to the set {B, C} and removed again. *)
Lemma add_then_remove_restores_on_samples :
  let w1 := notified (Some settingsBC)
              (addForm_submit no_failure oldest_first (lit "a.com") [] block
                 (page settingsBC)).2 in
  let r := removeEntry no_failure oldest_first
             (addForm_entry (lit "a.com") [] block) w1 in
  sync r.2 = Some (currentSettings (page settingsBC)).
Proof.
  intros w1 r.
  destruct (add_then_remove_restores no_failure oldest_first (lit "a.com") []
              block (Some settingsBC) (page settingsBC))
    as (_ & Hsync & _); [done|by vm_compute|done..|].
  exact Hsync.
Defined.

(** Removing a rule that is not in the set removes nothing, at full cost:
    on a page with no call to the store in flight, once the clear has
    succeeded, every entry of the set is replayed and the
    set itself is persisted again. *)
Theorem Remove_of_absent_rule outcome sched entry w :
  let n := length (calls w) in
  let settings := currentSettings w in
  let r := removeEntry outcome sched entry w in
  store_idle w = true →
  settings !! keyForEntry entry = None →
  outcome n CookiesClear = None →
  issued_since n r.2
  = CookiesClear :: (CookiesSet <$> Object_values settings) ++ [SyncSet settings]
  ∧ (outcome (S n + size settings) (SyncSet settings) = None →
     r.1 = Normal tt ∧ sync r.2 = Some settings).
Proof.
  intros n settings r _ Habsent Ho.
  pose proof (removeEntry_run outcome sched entry w) as Hrun.
  cbv zeta in Hrun. fold settings in Hrun.
  rewrite (delete_id _ _ Habsent), length_Object_values in Hrun.
  fold n r in Hrun. rewrite Ho in Hrun.
  destruct Hrun as (_ & Hr & Hiss & Hsync & _).
  split; [done|]. intros Ho2. rewrite Ho2 in Hr. auto.
Qed.

(** Rule A, removed from the set {B, C}. *)
Lemma Remove_of_absent_rule_on_samples :
  let r := removeEntry no_failure oldest_first entryA (page settingsBC) in
  issued_since 0 r.2
  = CookiesClear :: (CookiesSet <$> Object_values (currentSettings (page settingsBC)))
      ++ [SyncSet (currentSettings (page settingsBC))].
Proof.
  intros r.
  destruct (Remove_of_absent_rule no_failure oldest_first entryA (page settingsBC))
    as [Hiss _]; [done|by vm_compute|done|].
  exact Hiss.
Defined.

(** Removing the only rule of the set, on a page with no call to the store
    in flight: one clear, no replay call, and the empty set is persisted. *)
Theorem Remove_of_only_rule outcome sched entry w :
  let n := length (calls w) in
  let r := removeEntry outcome sched entry w in
  store_idle w = true →
  currentSettings w = {[keyForEntry entry := entry]} →
  outcome n CookiesClear = None →
  issued_since n r.2 = [CookiesClear; SyncSet ∅]
  ∧ (outcome (S n) (SyncSet ∅) = None →
     r.1 = Normal tt ∧ sync r.2 = Some ∅ ∧ rows (notified None r.2) = []).
Proof.
  intros n r _ Hone Ho.
  pose proof (removeEntry_run outcome sched entry w) as Hrun.
  cbv zeta in Hrun. rewrite Hone, delete_singleton_eq in Hrun.
  change (Object_values ∅) with (@nil CookieSettingsEntry) in Hrun.
  cbn [length] in Hrun. rewrite Nat.add_0_r in Hrun.
  fold n r in Hrun. rewrite Ho in Hrun.
  destruct Hrun as (_ & Hr & Hiss & Hsync & _).
  split; [done|]. intros Ho2. rewrite Ho2 in Hr.
  split_and!; [done|by apply Hsync|].
  by rewrite notified_rows, (Hsync Ho2).
Qed.

(** Rule A, removed from the set {A}. *)
Lemma Remove_of_only_rule_on_samples :
  let r := removeEntry no_failure oldest_first entryA
             (page {[keyForEntry entryA := entryA]}) in
  issued_since 0 r.2 = [CookiesClear; SyncSet ∅].
Proof.
  intros r.
  destruct (Remove_of_only_rule no_failure oldest_first entryA
              (page {[keyForEntry entryA := entryA]})) as [Hiss _]; [done..|].
  exact Hiss.
Defined.

(** A click on the Remove button of a row removes that row: when no call
    to the store is in flight, the table shows the mirrored set and every
    entry is stored under its own key,
    Remove for the entry of a row persists the set without that entry, one
    entry less; after the notification the row is gone and the table is one
    row shorter. *)
Theorem Remove_button_removes_its_row outcome sched old row w :
  let n := length (calls w) in
  let settings := currentSettings w in
  let entry := removeButton row in
  let rem := delete (keyForEntry entry) settings in
  let r := removeEntry outcome sched entry w in
  let w' := notified old r.2 in
  store_idle w = true →
  well_keyed settings → row ∈ tableBody settings →
  outcome n CookiesClear = None → outcome (n + size settings) (SyncSet rem) = None →
  r.1 = Normal tt
  ∧ sync r.2 = Some rem
  ∧ size rem = pred (size settings)
  ∧ length (issued_since n r.2) = S (size settings)
  ∧ (row ∉ rows w')
  ∧ length (rows w') = pred (length (tableBody settings))
  ∧ (∀ row', row' ∈ rows w' ↔ row' ∈ tableBody settings ∧ row' ≠ row).
Proof.
  intros n settings entry rem r w' _ Hwk Hrow Ho1 Ho2.
  apply elem_of_tableBody in Hrow as (key & entry' & Hm & Hrow).
  assert (entry' = entry) as ->.
  { subst entry. by rewrite Hrow. }
  assert (key = keyForEntry entry) as -> by by apply Hwk.
  assert (size rem = pred (size settings)) as Hsize.
  { apply map_size_delete_Some. by eexists. }
  assert (0 < size settings) as Hpos.
  { destruct (decide (size settings = 0)) as [H0|]; [|lia].
    apply map_size_empty_iff in H0. rewrite H0, lookup_empty in Hm. done. }
  pose proof (removeEntry_run outcome sched entry w) as Hrun.
  cbv zeta in Hrun. fold settings rem in Hrun.
  rewrite length_Object_values in Hrun. fold n r in Hrun.
  replace (S n + size rem) with (n + size settings) in Hrun by lia.
  rewrite Ho1, Ho2 in Hrun.
  destruct Hrun as (_ & Hr & Hiss & Hsync & _). specialize (Hsync eq_refl).
  assert (rows w' = tableBody rem) as Hrows.
  { subst w'. by rewrite notified_rows, Hsync. }
  assert (∀ row', row' ∈ tableBody rem ↔ row' ∈ tableBody settings ∧ row' ≠ row)
    as Hiff.
  { intros row'. rewrite !elem_of_tableBody. split.
    - intros (key' & e' & [Hne He']%lookup_delete_Some & ->). split; [eauto|].
      intros Heq. rewrite Hrow in Heq.
      apply (f_equal removeButton) in Heq. simpl in Heq. subst e'.
      apply Hne. symmetry. by apply Hwk.
    - intros [(key' & e' & He' & ->) Hne]. exists key', e'. split; [|done].
      apply lookup_delete_Some. split; [|done].
      intros <-. apply Hne. rewrite Hrow. congruence. }
  split_and!; [done|done|done| | | |].
  - rewrite Hiss. cbn [length]. rewrite length_app, length_fmap.
    rewrite length_Object_values. cbn [length]. lia.
  - rewrite Hrows. intros [_ Hne]%Hiff. done.
  - by rewrite Hrows, !length_tableBody.
  - intros row'. by rewrite Hrows.
Qed.

(** The row of rule B in the table of {A, B, C}. *)
Lemma Remove_button_of_row_B :
  let row := createTableRow entryB in
  let r := removeEntry no_failure oldest_first (removeButton row) (page settingsABC) in
  (row ∉ rows (notified (Some settingsABC) r.2))
  ∧ length (rows (notified (Some settingsABC) r.2))
    = pred (length (tableBody (currentSettings (page settingsABC)))).
Proof.
  intros row r.
  destruct (Remove_button_removes_its_row no_failure oldest_first
              (Some settingsABC) row (page settingsABC))
    as (_ & _ & _ & _ & Hgone & Hlen & _).
  - done.
  - exact well_keyed_settingsABC.
  - apply elem_of_tableBody. exists (keyForEntry entryB), entryB.
    split; [by vm_compute|done].
  - done.
  - done.
  - split; [exact Hgone|exact Hlen].
Defined.

(** Add and Remove keep every entry under its own key: when no call to the
    store is in flight and the mirrored set is so keyed, so is every set that
    these handlers hand to the store. *)
Theorem persisted_sets_stay_well_keyed outcome sched w :
  store_idle w = true →
  well_keyed (currentSettings w) →
  (∀ entry,
     Forall well_keyed
       (persisted_since (length (calls w)) (removeEntry outcome sched entry w).2))
  ∧ (∀ p s v,
       Forall well_keyed
         (persisted_since (length (calls w)) (addForm_submit outcome sched p s v w).2)).
Proof.
  intros _ Hwk. split.
  - intros entry.
    pose proof (removeEntry_run outcome sched entry w) as Hrun.
    cbv zeta in Hrun. destruct Hrun as [_ Hrun].
    destruct (outcome (length (calls w)) CookiesClear) as [e|].
    + destruct Hrun as (_ & Hiss & _). unfold persisted_since. rewrite Hiss.
      constructor.
    + destruct Hrun as (_ & Hiss & _).
      rewrite (persisted_since_remove _ _ _ _ Hiss).
      repeat constructor. by apply well_keyed_delete.
  - intros p s v.
    destruct (addForm_run outcome sched p s v w) as (_ & Hiss & _).
    unfold persisted_since. rewrite Hiss.
    destruct (outcome (length (calls w)) _) as [e|]; cbn [omap list_omap];
      repeat constructor.
    by apply well_keyed_insert.
Qed.

(** The set {A, B, C} is well keyed, and so is what Remove(A) persists. *)
Lemma persisted_sets_of_samples_well_keyed :
  Forall well_keyed
    (persisted_since (length (calls (page settingsABC)))
       (removeEntry no_failure oldest_first entryA (page settingsABC)).2).
Proof.
  destruct (persisted_sets_stay_well_keyed no_failure oldest_first (page settingsABC))
    as [Hrem _]; [done|exact well_keyed_settingsABC|].
  exact (Hrem entryA).
Defined.

(** What Remove keeps, SetAll replays: after a Remove that was started
    with no call to the store in flight, whose clear and persist succeeded,
    and the notification that follows, SetAll starts one
    set-call for every entry that Remove persisted, with the entries whose
    replay failed during Remove among them. *)
Theorem SetAll_after_Remove_replays_persisted outcome sched old entry w :
  let n := length (calls w) in
  let rem := delete (keyForEntry entry) (currentSettings w) in
  let w' := notified old (removeEntry outcome sched entry w).2 in
  store_idle w = true →
  outcome n CookiesClear = None → outcome (S n + size rem) (SyncSet rem) = None →
  issued_since (length (calls w')) (setAllButton_click w').2
  = CookiesSet <$> Object_values rem
  ∧ (∀ key entry', key ≠ keyForEntry entry →
       currentSettings w !! key = Some entry' →
       CookiesSet entry' ∈ issued_since (length (calls w')) (setAllButton_click w').2).
Proof.
  intros n rem w' _ Ho1 Ho2.
  pose proof (removeEntry_run outcome sched entry w) as Hrun.
  cbv zeta in Hrun. rewrite length_Object_values in Hrun.
  fold n rem in Hrun. rewrite Ho1 in Hrun.
  destruct Hrun as (_ & _ & _ & Hsync & _). specialize (Hsync Ho2).
  assert (currentSettings w' = rem) as Hcur.
  { subst w'. by rewrite notified_currentSettings, Hsync. }
  rewrite setAll_run. cbn [snd]. rewrite issued_since_issued_world, Hcur.
  split; [done|].
  intros key entry' Hne Hentry. apply list_elem_of_fmap. exists entry'.
  split; [done|]. apply elem_of_Object_values. exists key.
  by apply lookup_delete_Some.
Qed.

(** The replay of B fails during Remove(A); the SetAll that follows sends B
    to the engine again. *)
Lemma SetAll_replays_B_after_failed_replay :
  let r := removeEntry (replay_fails entryB) oldest_first entryA (page settingsABC) in
  let w' := notified (Some settingsABC) r.2 in
  ESettle 1 (Rejected boom) ∈ log r.2
  ∧ CookiesSet entryB ∈ issued_since (length (calls w')) (setAllButton_click w').2.
Proof.
  intros r w'. split.
  - vm_compute. do 5 right. left.
  - destruct (SetAll_after_Remove_replays_persisted (replay_fails entryB)
                oldest_first (Some settingsABC) entryA (page settingsABC))
      as [_ Hin]; [done..|].
    apply (Hin (keyForEntry entryB)); by vm_compute.
Defined.

(** ** Load *)

(** The initial load on a fresh page. When the [get] succeeds, the mirror
    and the table hold the persisted set, the empty set for a store without
    value, and the status is empty. When it fails, the load ends with that
    error, the mirror and the table stay empty whatever the store holds, the
    status shows the error, and the store is as it was. *)
Theorem initial_load outcome sched persisted :
  let r := initial_fetch outcome sched (startup persisted) in
  issued_since 0 r.2 = [SyncGet]
  ∧ sync r.2 = persisted
  ∧ match outcome 0 SyncGet with
    | None =>
        r.1 = Normal tt
        ∧ currentSettings r.2 = canonical persisted
        ∧ rows r.2 = tableBody (canonical persisted)
        ∧ statusText r.2 = []
    | Some e =>
        r.1 = Thrown (ExnLastError e)
        ∧ currentSettings r.2 = ∅
        ∧ rows r.2 = []
        ∧ statusText r.2 = message_or_unknown e
    end.
Proof.
  intros r. subst r. unfold initial_fetch.
  next_call (@bind_call outcome sched) w0 Hev Hq0.
  pose proof (awaited_quiet _ _ _ _ Hev Hq0 eq_refl) as Hw0.
  pose proof (awaited_currentSettings _ _ _ _ Hev) as Hcur.
  pose proof (awaited_table _ _ _ _ Hev) as Htab.
  pose proof (awaited_statusText outcome SyncGet (startup persisted) w0) as Hst.
  pose proof (awaited_sync outcome SyncGet (startup persisted) w0) as Hsync.
  pose proof (awaited_issued_since _ _ _ _ Hev 0 (le_n _)) as Hiss.
  change (length (calls (startup persisted))) with 0 in *.
  set (w1 := complete outcome 0 (fresh true SyncGet) w0) in *.
  assert (sync w0 = persisted) as Hsync0 by by rewrite Hw0.
  rewrite Hsync0 in Hsync |- *.
  assert (sync w1 = persisted) as Hsync'.
  { rewrite Hsync. by destruct (outcome 0 SyncGet). }
  assert (issued_since 0 w1 = [SyncGet]) as Hiss' by by rewrite Hiss.
  assert (currentSettings w1 = ∅) as Hcur' by by rewrite Hcur.
  assert (rows w1 = []) as Hrows'.
  { unfold rows. by rewrite Htab. }
  destruct (outcome 0 SyncGet) as [e|] eqn:Ho; cbn [fst snd].
  - by split_and!.
  - cbn [serve snd]. rewrite onSyncedSettings_run. cbn [fst snd].
    by split_and!.
Qed.

(** What a successful persist wrote, a load on a fresh page reads back: the
    mirror and the table hold the set that was persisted. *)
Theorem persist_then_load outcome h settings w outcome' sched' :
  let stored := sync (complete outcome h (fresh true (SyncSet settings)) w) in
  let r := initial_fetch outcome' sched' (startup stored) in
  outcome h (SyncSet settings) = None → outcome' 0 SyncGet = None →
  r.1 = Normal tt ∧ currentSettings r.2 = settings
  ∧ rows r.2 = tableBody settings.
Proof.
  intros stored r Ho Ho'.
  assert (stored = Some settings) as Hstored.
  { subst stored. rewrite complete_sync. simpl. by rewrite Ho. }
  pose proof (initial_fetch_run outcome' sched' (startup stored) eq_refl) as Hrun.
  cbv zeta in Hrun. change (length (calls (startup stored))) with 0 in Hrun.
  fold r in Hrun. rewrite Ho' in Hrun.
  destruct Hrun as (Hr & Hcur & Htab & _).
  change (sync (startup stored)) with stored in Hcur, Htab.
  rewrite Hstored in Hcur, Htab.
  split_and!; [done..|]. unfold rows. by rewrite Htab.
Qed.

(** The set {B, C}, persisted over {A, B, C} and loaded on a fresh page. *)
Lemma persist_then_load_on_samples :
  let stored := sync (complete no_failure 0 (fresh true (SyncSet settingsBC))
                        (page settingsABC)) in
  currentSettings (initial_fetch no_failure oldest_first (startup stored)).2
  = settingsBC.
Proof.
  intros stored.
  destruct (persist_then_load no_failure 0 settingsBC (page settingsABC)
              no_failure oldest_first) as (_ & Hcur & _); [done..|].
  exact Hcur.
Defined.

(** ** ClearAll and SetAll *)

(** After a ClearAll whose two calls succeeded and the notification that
    follows, nothing is left to replay: the mirror and the table are empty,
    and SetAll starts no call and leaves the page as it is. *)
Theorem SetAll_after_ClearAll_is_idle outcome sched old w :
  let n := length (calls w) in
  let w' := notified old (clearAllButton_click outcome sched true w).2 in
  outcome n CookiesClear = None → outcome (S n) SyncClear = None →
  currentSettings w' = ∅ ∧ rows w' = []
  ∧ setAllButton_click w' = (Normal tt, w').
Proof.
  intros n w' Ho1 Ho2.
  destruct (clearAll_run outcome sched w) as (_ & _ & _ & Hok & _).
  destruct (Hok Ho1 Ho2) as [Hsync _].
  assert (currentSettings w' = ∅) as Hcur.
  { subst w'. by rewrite notified_currentSettings, Hsync. }
  split_and!; [done| |].
  - subst w'. by rewrite notified_rows, Hsync.
  - rewrite setAll_run, Hcur.
    change (Object_values ∅) with (@nil CookieSettingsEntry).
    by rewrite issued_world_nil.
Qed.

(** ClearAll on the set {A, B, C}, then SetAll. *)
Lemma SetAll_after_ClearAll_on_samples :
  let w' := notified (Some settingsABC)
              (clearAllButton_click no_failure oldest_first true
                 (page settingsABC)).2 in
  setAllButton_click w' = (Normal tt, w').
Proof.
  intros w'.
  destruct (SetAll_after_ClearAll_is_idle no_failure oldest_first
              (Some settingsABC) (page settingsABC)) as (_ & _ & Hidle); [done..|].
  exact Hidle.
Defined.

(** ** Calls in flight and the store *)

Lemma unsettled_0_iff w :
  unsettled w = 0 ↔ ∀ i q, calls w !! i = Some q → is_Some (req_state q).
Proof.
  split.
  - intros H0 i q Hq. destruct (req_state q) as [r|] eqn:Hs; [by eexists|].
    pose proof (unsettled_pos _ _ _ Hq Hs). lia.
  - intros Hall. unfold unsettled.
    destruct (filter _ (calls w)) as [|q l] eqn:Hf; [done|].
    assert (q ∈ filter (λ q, req_state q = None) (calls w)) as Hin
      by (rewrite Hf; by left).
    apply list_elem_of_filter in Hin as [Hs [i Hq]%list_elem_of_lookup_1].
    destruct (Hall i q Hq) as [r Hr]. congruence.
Qed.

Lemma complete_sync_engine outcome h q w :
  store_call (req_call q) = false → sync (complete outcome h q w) = sync w.
Proof.
  intros Hc. rewrite complete_sync.
  destruct (outcome h (req_call q)); [done|]. by destruct (req_call q).
Qed.

(** Completions of calls to the rule engine, and of reads, leave the store
    as it is. *)
Lemma evolves_sync_engine outcome w w' :
  (∀ i q, calls w !! i = Some q → req_state q = None →
          store_call (req_call q) = false) →
  evolves outcome w w' → sync w' = sync w.
Proof.
  intros Hinv Hev. induction Hev as [|w h q w' Hq Hs _ IH]; [done|].
  rewrite IH, complete_sync_engine; [done|by eapply Hinv|].
  intros i q' Hq' Hs'.
  rewrite complete_calls, lookup_calls_settle in Hq'.
  case_decide as Hi; [|by eapply Hinv].
  subst i. rewrite Hq in Hq'. simplify_eq/=. by rewrite Hs in Hs'.
Qed.

(** Remove awaits every call it starts, and writes the store with its
    persist only. *)
Lemma removeEntry_quiet outcome sched entry w :
  let n := length (calls w) in
  let rem := delete (keyForEntry entry) (currentSettings w) in
  let hp := S n + size rem in
  let r := removeEntry outcome sched entry w in
  unsettled w = 0 →
  unsettled r.2 = 0
  ∧ (outcome n CookiesClear ≠ None ∨ outcome hp (SyncSet rem) ≠ None →
     sync r.2 = sync w).
Proof.
  intros n rem hp r Hquiet. subst r. unfold removeEntry.
  next_call (@bind_call outcome sched) w0 Hev Hq0.
  pose proof (awaited_currentSettings _ _ _ _ Hev) as Hcur.
  pose proof (awaited_length_calls _ _ _ _ Hev) as Hlen.
  pose proof (awaited_sync outcome CookiesClear w w0) as Hsync.
  pose proof (awaited_quiet _ _ _ _ Hev Hq0 Hquiet) as Hw0.
  pose proof (awaited_unsettled _ _ _ _ Hev Hq0 Hquiet) as Hquiet1.
  fold n in Hcur, Hlen, Hsync, Hquiet1 |- *.
  set (w1 := complete outcome n (fresh true CookiesClear) w0) in *.
  assert (sync w1 = sync w) as Hsync1.
  { rewrite Hsync, Hw0, issued_world_sync. by destruct (outcome n CookiesClear). }
  destruct (outcome n CookiesClear) as [e|] eqn:Ho; cbn [fst snd]; [done|].
  rewrite bind_gets, Hcur. fold rem.
  rewrite bind_mapM_api, Hlen.
  set (es := Object_values rem).
  set (w2 := issued_world true (CookiesSet <$> es) w1).
  match goal with
  | |- context [ mbind ?k (await_allSettled _ _ ?hs) ?w ] =>
      destruct (bind_allSettled outcome sched hs k w) as (w3 & Hev3 & Hall3 & Heq)
  end.
  { rewrite Forall_forall. intros h Hin%list_elem_of_In%in_seq.
    subst w2. rewrite issued_world_length_calls, length_fmap, Hlen. lia. }
  rewrite Heq. clear Heq.
  assert (length (calls w3) = hp) as Hlen3.
  { rewrite (evolves_length_calls _ _ _ Hev3). subst w2.
    rewrite issued_world_length_calls, length_fmap.
    subst es. by rewrite length_Object_values, Hlen. }
  assert (unsettled w3 = 0) as Hquiet3.
  { apply unsettled_0_iff. intros i q Hq.
    assert (is_Some (state_of w3 i)) as [st Hst].
    { destruct (decide (i < S n)) as [Hi|Hi].
      - destruct (lookup_lt_is_Some_2 (calls w1) i) as [q1 Hq1]; [lia|].
        destruct (proj1 (unsettled_0_iff w1) Hquiet1 i q1 Hq1) as [st Hst].
        exists st. apply (evolves_state_settled _ _ _ _ _ Hev3).
        unfold state_of. subst w2.
        rewrite issued_world_lookup_old by lia. by rewrite Hq1.
      - rewrite forallb_forall in Hall3.
        specialize (Hall3 i). unfold is_settled in Hall3.
        rewrite bool_decide_eq_true in Hall3. apply Hall3. apply in_seq.
        apply lookup_lt_Some in Hq. rewrite Hlen3 in Hq. subst hp es.
        rewrite length_Object_values. lia. }
    unfold state_of in Hst. rewrite Hq in Hst. by exists st. }
  assert (sync w3 = sync w) as Hsync3.
  { rewrite <- Hsync1. apply (evolves_sync_engine outcome w2); [|done].
    intros i q Hq Hs. subst w2. simpl in Hq.
    apply lookup_app_Some in Hq as [Hq|[_ Hq]].
    - destruct (proj1 (unsettled_0_iff w1) Hquiet1 i q Hq) as [st Hst]. congruence.
    - rewrite <- list_fmap_compose, list_lookup_fmap in Hq.
      destruct (es !! _); by simplify_eq/=. }
  next_call (@bind_call outcome sched) w4 Hev4 Hq4.
  pose proof (awaited_sync outcome (SyncSet rem) w3 w4) as Hsync4.
  pose proof (awaited_quiet _ _ _ _ Hev4 Hq4 Hquiet3) as Hw4.
  pose proof (awaited_unsettled _ _ _ _ Hev4 Hq4 Hquiet3) as Hquiet5.
  rewrite Hlen3 in Hsync4, Hquiet5 |- *.
  set (w5 := complete outcome hp (fresh true (SyncSet rem)) w4) in *.
  destruct (outcome hp (SyncSet rem)) as [e|] eqn:Ho5; cbn [fst snd mret M_ret].
  - split; [done|]. intros _. by rewrite Hsync4, Hw4, issued_world_sync.
  - split; [done|]. by intros [?|?].
Qed.

Lemma addForm_quiet outcome sched p s v w :
  unsettled w = 0 → unsettled (addForm_submit outcome sched p s v w).2 = 0.
Proof.
  intros Hquiet. unfold addForm_submit.
  next_call (@bind_call outcome sched) w0 Hev Hq0.
  pose proof (awaited_currentSettings _ _ _ _ Hev) as Hcur.
  pose proof (awaited_unsettled _ _ _ _ Hev Hq0 Hquiet) as Hquiet1.
  destruct (outcome _ (CookiesSet _)) as [e|]; cbn [fst snd]; [done|].
  rewrite bind_gets.
  next_call (@bind_call outcome sched) w2 Hev2 Hq2.
  pose proof (awaited_unsettled _ _ _ _ Hev2 Hq2 Hquiet1) as Hquiet2.
  by destruct (outcome _ (SyncSet _)).
Qed.

Lemma clearAll_quiet outcome sched confirmed w :
  unsettled w = 0 →
  unsettled (clearAllButton_click outcome sched confirmed w).2 = 0.
Proof.
  intros Hquiet. destruct confirmed; [|done]. unfold clearAllButton_click.
  next_call (@bind_call outcome sched) w0 Hev Hq0.
  pose proof (awaited_unsettled _ _ _ _ Hev Hq0 Hquiet) as Hquiet1.
  destruct (outcome _ CookiesClear) as [e|]; cbn [fst snd]; [done|].
  next_call (@bind_call outcome sched) w2 Hev2 Hq2.
  pose proof (awaited_unsettled _ _ _ _ Hev2 Hq2 Hquiet1) as Hquiet2.
  by destruct (outcome _ SyncClear).
Qed.

Lemma initial_fetch_quiet outcome sched w :
  unsettled w = 0 → unsettled (initial_fetch outcome sched w).2 = 0.
Proof.
  intros Hquiet. unfold initial_fetch.
  next_call (@bind_call outcome sched) w0 Hev Hq0.
  pose proof (awaited_unsettled _ _ _ _ Hev Hq0 Hquiet) as Hquiet1.
  pose proof (awaited_quiet _ _ _ _ Hev Hq0 Hquiet) as Hw0.
  destruct (outcome _ SyncGet) as [e|]; cbn [fst snd]; [done|].
  cbn [serve snd]. by rewrite onSyncedSettings_run.
Qed.

(** *** No store call in flight: an invariant of the page *)

Lemma store_idle_spec w :
  store_idle w = true
  ↔ ∀ i q, calls w !! i = Some q → req_state q = None →
           uses_store (req_call q) = false.
Proof.
  unfold store_idle. rewrite forallb_forall. split.
  - intros Hall i q Hq Hs.
    specialize (Hall q (proj1 (list_elem_of_In _ _) (list_elem_of_lookup_2 _ _ _ Hq))).
    rewrite Hs in Hall. by apply negb_true_iff.
  - intros Hall q [i Hq]%list_elem_of_In%list_elem_of_lookup_1.
    destruct (req_state q) eqn:Hs; [done|].
    apply negb_true_iff. by eapply Hall.
Qed.

(** A completion settles a call and starts none. *)
Lemma store_idle_complete outcome h q w :
  store_idle w = true → store_idle (complete outcome h q w) = true.
Proof.
  rewrite !store_idle_spec. intros Hidle i q' Hq' Hs.
  rewrite complete_calls, lookup_calls_settle in Hq'.
  case_decide as Hi; [|by eapply Hidle].
  destruct (calls w !! i) as [q0|]; [|done].
  simpl in Hq'. simplify_eq/=. by destruct (req_state q0).
Qed.

Lemma store_idle_evolves outcome w w' :
  evolves outcome w w' → store_idle w = true → store_idle w' = true.
Proof.
  induction 1 as [|w h q w' _ _ _ IH]; [done|].
  intros Hidle. by apply IH, store_idle_complete.
Qed.

(** Calls to the rule engine may be started at will. *)
Lemma store_idle_issued_world hooked cs w :
  Forall (λ c, uses_store c = false) cs →
  store_idle w = true → store_idle (issued_world hooked cs w) = true.
Proof.
  intros Hcs Hidle. unfold store_idle in *. cbn [calls issued_world].
  rewrite forallb_app, Hidle. cbn [andb].
  induction Hcs as [|c cs Hc _ IH]; [done|].
  rewrite fmap_cons. cbn [forallb fresh req_state req_call]. by rewrite Hc.
Qed.

(** A call that is awaited, to the store or to the engine, has settled when
    the function resumes. *)
Lemma store_idle_awaited outcome c w w0 :
  evolves outcome (issued_world true [c] w) w0 →
  calls w0 !! length (calls w) = Some (fresh true c) →
  store_idle w = true →
  store_idle (complete outcome (length (calls w)) (fresh true c) w0) = true.
Proof.
  intros Hev Hq0. rewrite !store_idle_spec. intros Hidle i q Hq Hs.
  rewrite complete_calls, lookup_calls_settle in Hq.
  case_decide as Hi.
  { subst i. rewrite Hq0 in Hq. simpl in Hq. by simplify_eq/=. }
  assert (i < length (calls w)) as Hlt.
  { apply lookup_lt_Some in Hq.
    rewrite (evolves_length_calls _ _ _ Hev), issued_world_length_calls in Hq.
    simpl in Hq. lia. }
  destruct (lookup_lt_is_Some_2 (calls w) i Hlt) as [q1 Hq1].
  assert (req_call q1 = req_call q) as Hcall.
  { pose proof (evolves_req_call _ _ _ Hev) as Hcalls.
    apply (f_equal (λ l, l !! i)) in Hcalls.
    rewrite !list_lookup_fmap, Hq, issued_world_lookup_old, Hq1 in Hcalls by done.
    simpl in Hcalls. congruence. }
  rewrite <- Hcall. apply (Hidle i q1 Hq1).
  destruct (req_state q1) as [st|] eqn:Hs1; [|done].
  assert (state_of w0 i = Some st) as Hst.
  { apply (evolves_state_settled _ _ _ _ _ Hev). unfold state_of.
    rewrite issued_world_lookup_old by done. by rewrite Hq1. }
  unfold state_of in Hst. rewrite Hq in Hst. simpl in Hst. congruence.
Qed.

Lemma removeEntry_store_idle outcome sched entry w :
  store_idle w = true → store_idle (removeEntry outcome sched entry w).2 = true.
Proof.
  intros Hidle. unfold removeEntry.
  next_call (@bind_call outcome sched) w0 Hev Hq0.
  pose proof (store_idle_awaited _ _ _ _ Hev Hq0 Hidle) as Hidle1.
  pose proof (awaited_length_calls _ _ _ _ Hev) as Hlen.
  set (w1 := complete outcome _ (fresh true CookiesClear) w0) in *.
  destruct (outcome _ CookiesClear) as [e|]; cbn [fst snd]; [done|].
  rewrite bind_gets, bind_mapM_api.
  match goal with
  | |- context [ mbind ?k (await_allSettled _ _ ?hs) ?w ] =>
      destruct (bind_allSettled outcome sched hs k w) as (w3 & Hev3 & _ & Heq)
  end.
  { rewrite Forall_forall. intros h Hin%list_elem_of_In%in_seq.
    rewrite issued_world_length_calls, length_fmap. lia. }
  rewrite Heq. clear Heq.
  assert (store_idle w3 = true) as Hidle3.
  { apply (store_idle_evolves _ _ _ Hev3), store_idle_issued_world; [|done].
    apply Forall_fmap, Forall_true. done. }
  next_call (@bind_call outcome sched) w4 Hev4 Hq4.
  pose proof (store_idle_awaited _ _ _ _ Hev4 Hq4 Hidle3) as Hidle5.
  by destruct (outcome _ (SyncSet _)).
Qed.

Lemma addForm_store_idle outcome sched p s v w :
  store_idle w = true → store_idle (addForm_submit outcome sched p s v w).2 = true.
Proof.
  intros Hidle. unfold addForm_submit.
  next_call (@bind_call outcome sched) w0 Hev Hq0.
  pose proof (store_idle_awaited _ _ _ _ Hev Hq0 Hidle) as Hidle1.
  destruct (outcome _ (CookiesSet _)) as [e|]; cbn [fst snd]; [done|].
  rewrite bind_gets.
  next_call (@bind_call outcome sched) w2 Hev2 Hq2.
  pose proof (store_idle_awaited _ _ _ _ Hev2 Hq2 Hidle1) as Hidle2.
  by destruct (outcome _ (SyncSet _)).
Qed.

Lemma clearAll_store_idle outcome sched confirmed w :
  store_idle w = true →
  store_idle (clearAllButton_click outcome sched confirmed w).2 = true.
Proof.
  intros Hidle. destruct confirmed; [|done]. unfold clearAllButton_click.
  next_call (@bind_call outcome sched) w0 Hev Hq0.
  pose proof (store_idle_awaited _ _ _ _ Hev Hq0 Hidle) as Hidle1.
  destruct (outcome _ CookiesClear) as [e|]; cbn [fst snd]; [done|].
  next_call (@bind_call outcome sched) w2 Hev2 Hq2.
  pose proof (store_idle_awaited _ _ _ _ Hev2 Hq2 Hidle1) as Hidle2.
  by destruct (outcome _ SyncClear).
Qed.

Lemma initial_fetch_store_idle outcome sched w :
  store_idle w = true → store_idle (initial_fetch outcome sched w).2 = true.
Proof.
  intros Hidle. unfold initial_fetch.
  next_call (@bind_call outcome sched) w0 Hev Hq0.
  pose proof (store_idle_awaited _ _ _ _ Hev Hq0 Hidle) as Hidle1.
  destruct (outcome _ SyncGet) as [e|]; cbn [fst snd]; [done|].
  cbn [serve snd]. by rewrite onSyncedSettings_run.
Qed.

(** The page keeps its store calls awaited. It starts with no call in flight;
    Remove, AddOrReplace, ClearAll and the load, started with no call to the
    store in flight, return with none in flight, however they end, because
    each of them awaits the store calls it makes; SetAll calls the rule engine
    only, and a change notification starts no call. So the handlers of a page
    that runs them one after the other each start with no call to the store
    in flight, whatever calls to the rule engine SetAll has left behind. *)
Theorem store_calls_are_awaited outcome sched w :
  (∀ persisted, store_idle (startup persisted) = true)
  ∧ (store_idle w = true →
     (∀ entry, store_idle (removeEntry outcome sched entry w).2 = true)
     ∧ (∀ p s v, store_idle (addForm_submit outcome sched p s v w).2 = true)
     ∧ (∀ confirmed,
          store_idle (clearAllButton_click outcome sched confirmed w).2 = true)
     ∧ store_idle (initial_fetch outcome sched w).2 = true
     ∧ store_idle (setAllButton_click w).2 = true
     ∧ (∀ old, store_idle (notified old w) = true)
     ∧ (∀ h q, store_idle (complete outcome h q w) = true)).
Proof.
  split; [done|]. intros Hidle. split_and!.
  - intros entry. by apply removeEntry_store_idle.
  - intros p s v. by apply addForm_store_idle.
  - intros confirmed. by apply clearAll_store_idle.
  - by apply initial_fetch_store_idle.
  - rewrite setAll_run. cbn [snd]. apply store_idle_issued_world; [|done].
    apply Forall_fmap, Forall_true. done.
  - done.
  - intros h q. by apply store_idle_complete.
Qed.

(** Remove, AddOrReplace, ClearAll and the load await every call they
    start: run on a page with no call in flight, each of them returns with no
    call in flight, whether it ends normally or with an error. SetAll does
    not: it returns with one call in flight per entry. *)
Theorem handlers_await_their_calls outcome sched w :
  unsettled w = 0 →
  (∀ entry, unsettled (removeEntry outcome sched entry w).2 = 0)
  ∧ (∀ p s v, unsettled (addForm_submit outcome sched p s v w).2 = 0)
  ∧ (∀ confirmed, unsettled (clearAllButton_click outcome sched confirmed w).2 = 0)
  ∧ unsettled (initial_fetch outcome sched w).2 = 0
  ∧ unsettled (setAllButton_click w).2 = size (currentSettings w).
Proof.
  intros Hquiet. split_and!.
  - intros entry. by destruct (removeEntry_quiet outcome sched entry w Hquiet).
  - intros p s v. by apply addForm_quiet.
  - intros confirmed. by apply clearAll_quiet.
  - by apply initial_fetch_quiet.
  - rewrite setAll_run. cbn [snd].
    by rewrite issued_world_unsettled, length_fmap, length_Object_values, Hquiet.
Qed.

(** Remove(A) with a failing replay, and SetAll, on the set {A, B, C}. *)
Lemma handlers_await_their_calls_on_samples :
  unsettled (removeEntry (replay_fails entryB) oldest_first entryA
               (page settingsABC)).2 = 0
  ∧ unsettled (setAllButton_click (page settingsABC)).2
    = size (currentSettings (page settingsABC)).
Proof.
  destruct (handlers_await_their_calls (replay_fails entryB) oldest_first
              (page settingsABC) eq_refl) as (Hrem & _ & _ & _ & Hset).
  split; [exact (Hrem entryA)|exact Hset].
Defined.

(** Remove writes the store with its persist only: run on a page with no
    call in flight, a Remove whose clear or persist fails ends with an error
    and leaves the store, like the mirror, as it found them; the rule is then
    still in the canonical set, whatever the engine holds. *)
Theorem Remove_failure_keeps_store outcome sched entry w :
  let n := length (calls w) in
  let rem := delete (keyForEntry entry) (currentSettings w) in
  let hp := S n + size rem in
  let r := removeEntry outcome sched entry w in
  unsettled w = 0 →
  outcome n CookiesClear ≠ None ∨ outcome hp (SyncSet rem) ≠ None →
  sync r.2 = sync w ∧ currentSettings r.2 = currentSettings w
  ∧ ∃ e, r.1 = Thrown (ExnLastError e).
Proof.
  intros n rem hp r Hquiet Hfail.
  destruct (removeEntry_quiet outcome sched entry w Hquiet) as [_ Hsync].
  pose proof (removeEntry_run outcome sched entry w) as Hrun.
  cbv zeta in Hrun. rewrite length_Object_values in Hrun.
  fold n rem hp r in Hsync, Hrun. destruct Hrun as [Hcur Hrun].
  split_and!; [by apply Hsync|done|].
  destruct (outcome n CookiesClear) as [e|].
  - destruct Hrun as [Hr _]. eauto.
  - destruct Hrun as [Hr _].
    destruct (outcome hp (SyncSet rem)) as [e|]; [eauto|].
    by destruct Hfail.
Qed.

(** Remove(A) on the set {A, B, C} with a persist that fails. *)
Lemma Remove_with_failed_persist_keeps_A :
  let r := removeEntry persist_fails oldest_first entryA (page settingsABC) in
  sync r.2 = sync (page settingsABC)
  ∧ currentSettings r.2 = currentSettings (page settingsABC).
Proof.
  intros r.
  destruct (Remove_failure_keeps_store persist_fails oldest_first entryA
              (page settingsABC)) as (Hsync & Hcur & _);
    [done|by right|].
  split; [exact Hsync|exact Hcur].
Defined.
